(** * Flappy Bird: the simulation loop of [frontend/src/FlappyBird.tsx]

    A shallow embedding of the game core of the React component
    [FlappyBird] (the two frontend variants share it verbatim): the
    timebase normaliser, the physics step, the obstacle stream, the
    collision test, the impulse handler with its wall-clock cooldown,
    the keyboard and pointer handlers and the restart action.

    Numbers.  JavaScript numbers that carry positions, velocities and
    frame timestamps are modelled as exact rationals [Q]; comparisons
    are the boolean tests of [QArith].  [Date.now()] is an integer number
    of milliseconds and is modelled in [Z], as are the score and the
    frame counters.  Rounding of binary64 arithmetic is not modelled.

    State.  The component keeps its simulation state in [useRef] cells
    and mirrors a few facts in React state.  [Env] gathers them.  Drawing
    and audio playback have no influence on that state and are left out;
    the pending-sound mailbox is kept because the simulation writes it.

    The second part embeds what the component computes for the display
    (scale, tilt, score glyphs), the request [submitScore] sends, and the
    handlers of the score service that receive it. *)

From Stdlib Require Import String Ascii Bool NArith ZArith QArith Lia Lqa List Sorted.
Import ListNotations.
Local Open Scope Q_scope.

(** ** Constants *)

Definition GRAVITY : Q := 3 # 10.
Definition JUMP_STRENGTH : Q := 75 # 10.
Definition PIPE_WIDTH : Q := 52.
Definition PIPE_GAP : Q := 150.
Definition PIPE_SPEED : Q := 2.
Definition BIRD_WIDTH : Q := 34.
Definition BIRD_HEIGHT : Q := 24.
Definition TARGET_FPS : Q := 60.
Definition MAX_DELTA_TIME : Q := 1.
Definition JUMP_COOLDOWN : Z := 200.
Definition CANVAS_WIDTH : Q := 288.
Definition CANVAS_HEIGHT : Q := 512.

(** The bird's fixed horizontal anchor: the literal [50] of [gameLoop]. *)
Definition BIRD_X : Q := 50.

(** ** Data model *)

Record Bird := mkBird {
  bird_y : Q;
  bird_velocity : Q;
  bird_frame : Z
}.

Record Pipe := mkPipe {
  pipe_x : Q;
  pipe_topHeight : Q;
  pipe_scored : bool
}.

Record GameState := mkGameState {
  bird : Bird;
  pipes : list Pipe;
  score : Z;
  gameOver : bool;
  gameStarted : bool;
  frameCount : Z
}.

Record LeaderboardEntry := mkLeaderboardEntry {
  player_name : string;
  entry_score : Z;
  created_at : string
}.

Inductive Sound := Point | Hit | Wing.

Definition Sound_eqb (a b : Sound) : bool :=
  match a, b with
  | Point, Point | Hit, Hit | Wing, Wing => true
  | _, _ => false
  end.

(** React state of the component that the game core writes, together
    with the mailbox [pendingSoundsRef] (a JS [Set], kept in insertion
    order). *)
Record Ui := mkUi {
  pendingSounds : list Sound;
  finalScore : Z;
  isGameOver : bool;
  isGameStarted : bool;
  hasSubmitted : bool;
  leaderboard : list LeaderboardEntry
}.

(** The refs of the component.  [gameStateRef] is the session object
    that [gameStateRef.current] points to; every handler reads the ref
    afresh on entry, so there is exactly one live session.  Session
    objects that the ref pointed to earlier are kept, untouched, in
    [detached]: nothing can reach them any more. *)
Record Env := mkEnv {
  gameStateRef : GameState;
  detached : list GameState;
  lastFrameTimeRef : Q;
  lastJumpTimeRef : Z;
  ui : Ui
}.

(** The three phases of the specification, read off the two flags the
    way [gameLoop] and [jump] branch on them.  [gameOver] without
    [gameStarted] is no phase (and is never reached, see
    [reachable_over_started]). *)
Inductive Phase := NotStarted | Running | Over.

Definition phase (s : GameState) : option Phase :=
  match gameStarted s, gameOver s with
  | false, false => Some NotStarted
  | true, false => Some Running
  | true, true => Some Over
  | false, true => None
  end.

(** ** Field updates *)

Definition set_velocity (v : Q) (s : GameState) : GameState :=
  mkGameState (mkBird (bird_y (bird s)) v (bird_frame (bird s)))
    (pipes s) (score s) (gameOver s) (gameStarted s) (frameCount s).

Definition set_gameStarted (b : bool) (s : GameState) : GameState :=
  mkGameState (bird s) (pipes s) (score s) (gameOver s) b (frameCount s).

Definition set_pipes (ps : list Pipe) (s : GameState) : GameState :=
  mkGameState (bird s) ps (score s) (gameOver s) (gameStarted s) (frameCount s).

Definition set_pendingSounds (l : list Sound) (u : Ui) : Ui :=
  mkUi l (finalScore u) (isGameOver u) (isGameStarted u) (hasSubmitted u)
    (leaderboard u).

Definition setFinalScore (n : Z) (u : Ui) : Ui :=
  mkUi (pendingSounds u) n (isGameOver u) (isGameStarted u) (hasSubmitted u)
    (leaderboard u).

Definition setIsGameOver (b : bool) (u : Ui) : Ui :=
  mkUi (pendingSounds u) (finalScore u) b (isGameStarted u) (hasSubmitted u)
    (leaderboard u).

Definition setIsGameStarted (b : bool) (u : Ui) : Ui :=
  mkUi (pendingSounds u) (finalScore u) (isGameOver u) b (hasSubmitted u)
    (leaderboard u).

Definition setHasSubmitted (b : bool) (u : Ui) : Ui :=
  mkUi (pendingSounds u) (finalScore u) (isGameOver u) (isGameStarted u) b
    (leaderboard u).

Definition setLeaderboard (l : list LeaderboardEntry) (u : Ui) : Ui :=
  mkUi (pendingSounds u) (finalScore u) (isGameOver u) (isGameStarted u)
    (hasSubmitted u) l.

(** [Set.prototype.add]: a key already present keeps its place. *)
Definition set_add (k : Sound) (l : list Sound) : list Sound :=
  if existsb (Sound_eqb k) l then l else l ++ [k].

Definition queueSound (k : Sound) (u : Ui) : Ui :=
  set_pendingSounds (set_add k (pendingSounds u)) u.

(** ** Comparisons of numbers *)

Definition Qltb (a b : Q) : bool := negb (Qle_bool b a).
Definition Qgtb (a b : Q) : bool := Qltb b a.

Lemma Qltb_true (a b : Q) : Qltb a b = true <-> a < b.
Proof.
  unfold Qltb. rewrite negb_true_iff.
  split; intro H.
  - apply Qnot_le_lt. intro L. apply Qle_bool_iff in L. congruence.
  - destruct (Qle_bool b a) eqn:E; [|reflexivity].
    apply Qle_bool_iff in E. exfalso. exact (Qlt_not_le _ _ H E).
Qed.

Lemma Qltb_false (a b : Q) : Qltb a b = false <-> b <= a.
Proof.
  unfold Qltb. rewrite negb_false_iff. apply Qle_bool_iff.
Qed.

(** [Math.min] on two numbers. *)
Definition Math_min (a b : Q) : Q := if Qle_bool a b then a else b.

(** ** Timebase normaliser (head of [gameLoop]) *)

(** [if (lastFrameTimeRef.current === 0) lastFrameTimeRef.current = currentTime] *)
Definition initLastFrameTime (currentTime last : Q) : Q :=
  if Qeq_bool last 0 then currentTime else last.

(** Milliseconds the normaliser takes as elapsed. *)
Definition elapsed (currentTime last : Q) : Q :=
  currentTime - initLastFrameTime currentTime last.

(** [dt = Math.min((currentTime - last) / (1000 / TARGET_FPS), MAX_DELTA_TIME)] *)
Definition deltaTime (currentTime last : Q) : Q :=
  Math_min (elapsed currentTime last / (1000 / TARGET_FPS)) MAX_DELTA_TIME.

(** ** Collision geometry *)

Record Rect := mkRect {
  rect_x : Q;
  rect_y : Q;
  rect_width : Q;
  rect_height : Q
}.

(** The four-sided test of [gameLoop], written once for both segments:
    [a.x < b.x + b.width && a.x + a.width > b.x &&
     a.y < b.y + b.height && a.y + a.height > b.y]. *)
Definition intersects (a b : Rect) : bool :=
  Qltb (rect_x a) (rect_x b + rect_width b)
  && Qgtb (rect_x a + rect_width a) (rect_x b)
  && Qltb (rect_y a) (rect_y b + rect_height b)
  && Qgtb (rect_y a + rect_height a) (rect_y b).

Definition birdRect (y : Q) : Rect := mkRect BIRD_X y BIRD_WIDTH BIRD_HEIGHT.

Definition topPipeRect (p : Pipe) : Rect :=
  mkRect (pipe_x p) 0 PIPE_WIDTH (pipe_topHeight p).

Definition bottomPipeRect (p : Pipe) : Rect :=
  mkRect (pipe_x p) (pipe_topHeight p + PIPE_GAP) PIPE_WIDTH
         (CANVAS_HEIGHT - pipe_topHeight p - PIPE_GAP).

(** ** Obstacle stream *)

Definition movePipe (dt : Q) (p : Pipe) : Pipe :=
  mkPipe (pipe_x p - PIPE_SPEED * dt) (pipe_topHeight p) (pipe_scored p).

(** [pipe.x + PIPE_WIDTH <= 0] *)
Definition offScreen (p : Pipe) : bool := Qle_bool (pipe_x p + PIPE_WIDTH) 0.

(** The first loop of the running branch: every pipe is moved and the
    indices of those now off screen are collected, in increasing order.
    [i] is the index of the head of [ps]. *)
Fixpoint movePipes (dt : Q) (i : nat) (ps : list Pipe) : list Pipe * list nat :=
  match ps with
  | [] => ([], [])
  | p :: rest =>
      let p' := movePipe dt p in
      let '(rest', rm) := movePipes dt (S i) rest in
      (p' :: rest', if offScreen p' then i :: rm else rm)
  end.

(** [arr.splice(i, 1)] *)
Definition splice1 {A : Type} (i : nat) (l : list A) : list A :=
  firstn i l ++ skipn (S i) l.

(** [for (let i = rm.length - 1; i >= 0; i--) state.pipes.splice(rm[i], 1)] *)
Definition removePipes (rm : list nat) (ps : list Pipe) : list Pipe :=
  fold_left (fun l i => splice1 i l) (rev rm) ps.

Definition newPipe (rnd : Q) : Pipe :=
  mkPipe CANVAS_WIDTH (rnd * (CANVAS_HEIGHT - PIPE_GAP - 100) + 50) false.

(** [pipes.length === 0 || pipes[pipes.length - 1].x < canvas.width - 200];
    [rnd] is the value [Math.random()] returns when it is called. *)
Definition spawnPipe (rnd : Q) (ps : list Pipe) : list Pipe :=
  if Nat.eqb (length ps) 0
     || Qltb (pipe_x (last ps (newPipe rnd))) (CANVAS_WIDTH - 200)
  then ps ++ [newPipe rnd]
  else ps.

(** ** Scoring and collision loop *)

(** [if (!pipe.scored && pipe.x + PIPE_WIDTH < 50)
       { pipe.scored = true; state.score++; queueSound("point") }] *)
Definition scorePipe (p : Pipe) (sc : Z) (u : Ui) : Pipe * Z * Ui :=
  if negb (pipe_scored p) && Qltb (pipe_x p + PIPE_WIDTH) 50
  then (mkPipe (pipe_x p) (pipe_topHeight p) true, (sc + 1)%Z, queueSound Point u)
  else (p, sc, u).

(** What every collision branch does besides setting [state.gameOver]:
    [setFinalScore(state.score); setIsGameOver(true); queueSound("hit")]. *)
Definition hit (sc : Z) (u : Ui) : Ui :=
  queueSound Hit (setIsGameOver true (setFinalScore sc u)).

(** [for (const pipe of state.pipes) { ... }] with its two [break]s.
    The result is the pipe array, the score, whether [state.gameOver]
    was set, and the React state. *)
Fixpoint checkPipes (y : Q) (ps : list Pipe) (sc : Z) (u : Ui)
  : list Pipe * Z * bool * Ui :=
  match ps with
  | [] => ([], sc, false, u)
  | pipe :: rest =>
      let '(pipe1, sc1, u1) := scorePipe pipe sc u in
      if intersects (birdRect y) (topPipeRect pipe1) then
        (pipe1 :: rest, sc1, true, hit sc1 u1)
      else if intersects (birdRect y) (bottomPipeRect pipe1) then
        (pipe1 :: rest, sc1, true, hit sc1 u1)
      else
        let '(rest', sc', over, u') := checkPipes y rest sc1 u1 in
        (pipe1 :: rest', sc', over, u')
  end.

(** [state.bird.y > canvas.height || state.bird.y < 0] *)
Definition outOfBounds (y : Q) : bool := Qgtb y CANVAS_HEIGHT || Qltb y 0.

(** ** One running frame: the body of [if (!state.gameOver) { ... }] *)

Definition update (dt rnd : Q) (s : GameState) (u : Ui) : GameState * Ui :=
  let velocity := bird_velocity (bird s) + GRAVITY * dt in
  let y := bird_y (bird s) + velocity * dt in
  let frameCount' := (frameCount s + 1)%Z in
  let frame := if (Z.rem frameCount' 5 =? 0)%Z
               then Z.rem (bird_frame (bird s) + 1) 3
               else bird_frame (bird s) in
  let '(moved, rm) := movePipes dt 0 (pipes s) in
  let kept := removePipes rm moved in
  let spawned := spawnPipe rnd kept in
  let '(pipes', score', over, u1) := checkPipes y spawned (score s) u in
  let '(over', u2) := if outOfBounds y then (true, hit score' u1) else (over, u1) in
  (mkGameState (mkBird y velocity frame) pipes' score' over' (gameStarted s)
               frameCount',
   u2).

(** ** The frame callback *)

(** [gameLoop] once [dt] is known: flush the sound mailbox, store the
    timestamp, then branch on the phase. *)
Definition frameWith (dt currentTime rnd : Q) (e : Env) : Env :=
  let state := gameStateRef e in
  let u0 := set_pendingSounds [] (ui e) in
  if negb (gameStarted state) then
    mkEnv state (detached e) currentTime (lastJumpTimeRef e) u0
  else if negb (gameOver state) then
    let '(state', u') := update dt rnd state u0 in
    mkEnv state' (detached e) currentTime (lastJumpTimeRef e) u'
  else
    mkEnv state (detached e) currentTime (lastJumpTimeRef e) u0.

Definition gameLoop (currentTime rnd : Q) (e : Env) : Env :=
  frameWith (deltaTime currentTime (lastFrameTimeRef e)) currentTime rnd e.

(** ** Input handlers; [now] is the value of [Date.now()] *)

Definition jump (now : Z) (e : Env) : Env :=
  let state := gameStateRef e in
  if (now - lastJumpTimeRef e <? JUMP_COOLDOWN)%Z then e
  else if negb (gameOver state) && gameStarted state then
    mkEnv (set_velocity (- JUMP_STRENGTH) state) (detached e)
          (lastFrameTimeRef e) now (ui e)
  else if negb (gameStarted state) then
    mkEnv (set_gameStarted true state) (detached e) 0 now
          (setIsGameStarted true (ui e))
  else
    mkEnv state (detached e) (lastFrameTimeRef e) now (ui e).

Definition handleKeyPress (code : string) (now : Z) (e : Env) : Env :=
  if String.eqb code "Space" then
    let state := gameStateRef e in
    if negb (gameStarted state) then
      mkEnv (set_gameStarted true state) (detached e) 0 (lastJumpTimeRef e)
            (setIsGameStarted true (ui e))
    else if negb (gameOver state) then jump now e
    else e
  else e.

Definition handleCanvasClick (now : Z) (e : Env) : Env :=
  if gameOver (gameStateRef e) then e else jump now e.

Definition handleTouchStart (now : Z) (e : Env) : Env :=
  if gameOver (gameStateRef e) then e else jump now e.

(** The object literal both the initial [useRef] and [restartGame] build. *)
Definition freshState (started : bool) : GameState :=
  mkGameState (mkBird 200 0 0) [] 0 false started 0.

Definition restartGame (e : Env) : Env :=
  mkEnv (freshState true) (gameStateRef e :: detached e) 0 (lastJumpTimeRef e)
        (setFinalScore 0
           (setLeaderboard []
              (setHasSubmitted false
                 (setIsGameStarted true (setIsGameOver false (ui e)))))).

Definition initialEnv : Env :=
  mkEnv (freshState false) [] 0 0 (mkUi [] 0 false false false []).

(** ** Runs of the component *)

Inductive Event :=
| Frame (currentTime rnd : Q)
| KeyDown (code : string) (now : Z)
| Click (now : Z)
| TouchStart (now : Z)
| Restart.

Definition handle (ev : Event) (e : Env) : Env :=
  match ev with
  | Frame currentTime rnd => gameLoop currentTime rnd e
  | KeyDown code now => handleKeyPress code now e
  | Click now => handleCanvasClick now e
  | TouchStart now => handleTouchStart now e
  | Restart => restartGame e
  end.

(** What the host guarantees: animation-frame timestamps never go back,
    [Math.random()] lies in [[0, 1)], and the restart button exists only
    on the game-over overlay. *)
Definition admissible (ev : Event) (e : Env) : Prop :=
  match ev with
  | Frame currentTime rnd =>
      lastFrameTimeRef e <= currentTime /\ 0 <= rnd /\ rnd < 1
  | Restart => isGameOver (ui e) = true
  | _ => True
  end.

Inductive reachable : Env -> Prop :=
| reachable_init : reachable initialEnv
| reachable_step e ev :
    reachable e -> admissible ev e -> reachable (handle ev e).

Definition run (evs : list Event) (e : Env) : Env :=
  fold_left (fun e ev => handle ev e) evs e.

Definition isFrame (ev : Event) : Prop :=
  match ev with Frame _ _ => True | _ => False end.

Definition isRestart (ev : Event) : Prop :=
  match ev with Restart => True | _ => False end.

(** ** Auxiliary notions used in the statements *)

(** Indices, counted from [i], of the pipes of [ps] that are off screen. *)
Fixpoint offScreenFrom (i : nat) (ps : list Pipe) : list nat :=
  match ps with
  | [] => []
  | p :: rest =>
      if offScreen p then i :: offScreenFrom (S i) rest
      else offScreenFrom (S i) rest
  end.

(** The pipes of [ps] after the move by [dt], those then off screen
    dropped in place. *)
Definition survivors (dt : Q) (ps : list Pipe) : list Pipe :=
  filter (fun p => negb (offScreen p)) (map (movePipe dt) ps).

(** The bird at height [y] overlaps one of the two segments of [p]. *)
Definition collides (y : Q) (p : Pipe) : bool :=
  intersects (birdRect y) (topPipeRect p)
  || intersects (birdRect y) (bottomPipeRect p).

(** The scoring condition of [scorePipe]. *)
Definition passing (p : Pipe) : bool :=
  negb (pipe_scored p) && Qltb (pipe_x p + PIPE_WIDTH) 50.

(** Bird height and velocity after the integration step of [update]. *)
Definition nextVelocity (dt : Q) (s : GameState) : Q :=
  bird_velocity (bird s) + GRAVITY * dt.

Definition nextY (dt : Q) (s : GameState) : Q :=
  bird_y (bird s) + nextVelocity dt s * dt.

(** Two rectangles share an edge line: zero-width overlap on an axis. *)
Definition touching (a b : Rect) : Prop :=
  rect_x a + rect_width a == rect_x b
  \/ rect_x b + rect_width b == rect_x a
  \/ rect_y a + rect_height a == rect_y b
  \/ rect_y b + rect_height b == rect_y a.

(** The projections of two rectangles on an axis overlap. *)
Definition overlapsX (a b : Rect) : Prop :=
  rect_x a < rect_x b + rect_width b /\ rect_x b < rect_x a + rect_width a.

Definition overlapsY (a b : Rect) : Prop :=
  rect_y a < rect_y b + rect_height b /\ rect_y b < rect_y a + rect_height a.

Definition shiftRect (dx dy : Q) (a : Rect) : Rect :=
  mkRect (rect_x a + dx) (rect_y a + dy) (rect_width a) (rect_height a).

(** ** Invariants of runs *)

(** A pipe whose trailing edge is left of the anchor has been scored. *)
Definition marked (p : Pipe) : Prop :=
  pipe_x p + PIPE_WIDTH < 50 -> pipe_scored p = true.

(** Leftmost first. *)
Definition ordered (ps : list Pipe) : Prop :=
  StronglySorted Qle (map pipe_x ps).

Definition onCanvas (ps : list Pipe) : Prop :=
  Forall (fun p => pipe_x p <= CANVAS_WIDTH) ps.

Record Inv (e : Env) : Prop := mkInv {
  inv_idle :
    gameStarted (gameStateRef e) = false ->
    lastJumpTimeRef e = 0%Z
    /\ gameOver (gameStateRef e) = false
    /\ pipes (gameStateRef e) = [];
  inv_ordered : ordered (pipes (gameStateRef e));
  inv_onCanvas : onCanvas (pipes (gameStateRef e));
  inv_marked : Forall marked (pipes (gameStateRef e))
}.

(** ** Further invariants of runs *)

(** The gap of a spawned pipe: [Math.random() * (512 - 150 - 100) + 50]
    with [Math.random()] in [[0, 1)]. *)
Definition gapInBounds (p : Pipe) : Prop :=
  50 <= pipe_topHeight p /\ pipe_topHeight p < CANVAS_HEIGHT - PIPE_GAP - 50.

(** Each pipe is more than 200 to the left of every later one. *)
Definition spaced (ps : list Pipe) : Prop :=
  StronglySorted (fun a b => a + 200 < b) (map pipe_x ps).

(** Not yet retired, and not right of the spawn position. *)
Definition onScreen (p : Pipe) : Prop :=
  - PIPE_WIDTH < pipe_x p /\ pipe_x p <= CANVAS_WIDTH.

Record Wf (e : Env) : Prop := mkWf {
  wf_gaps : Forall gapInBounds (pipes (gameStateRef e));
  wf_spaced : spaced (pipes (gameStateRef e));
  wf_onScreen : Forall onScreen (pipes (gameStateRef e));
  wf_height :
    gameOver (gameStateRef e) = false ->
    0 <= bird_y (bird (gameStateRef e))
    /\ bird_y (bird (gameStateRef e)) <= CANVAS_HEIGHT;
  wf_velocity : - JUMP_STRENGTH <= bird_velocity (bird (gameStateRef e));
  wf_sprite : (0 <= bird_frame (bird (gameStateRef e)) <= 2)%Z;
  wf_frameCount : (0 <= frameCount (gameStateRef e))%Z;
  wf_score : (0 <= score (gameStateRef e))%Z;
  wf_isGameOver : isGameOver (ui e) = gameOver (gameStateRef e);
  wf_isGameStarted : isGameStarted (ui e) = gameStarted (gameStateRef e);
  wf_finalScore :
    finalScore (ui e)
    = if gameOver (gameStateRef e) then score (gameStateRef e) else 0%Z;
  wf_notStarted :
    gameStarted (gameStateRef e) = false -> gameStateRef e = freshState false
}.

(** The sounds a frame leaves in the mailbox, given the score before and
    after and whether the session is over. *)
Definition soundsOf (before after : Z) (over : bool) : list Sound :=
  (if (before <? after)%Z then [Point] else [])
  ++ (if over then [Hit] else []).

(** ** Presentation helpers *)

(** [Math.max] on two numbers. *)
Definition Math_max (a b : Q) : Q := if Qle_bool a b then b else a.

(** [updateScale]: the value passed to [setScale] for a window of the
    given inner width and height. *)
Definition updateScale (innerWidth innerHeight : Q) : Q :=
  if Qltb innerWidth 768
  then Math_max (innerWidth / CANVAS_WIDTH) (innerHeight / CANVAS_HEIGHT)
  else 1.

(** The angle handed to [ctx.rotate] when the bird is drawn,
    [Math.min(Math.PI / 4, Math.max(-Math.PI / 4, velocity * 0.1))];
    [PI] stands for [Math.PI]. *)
Definition birdRotation (PI : Q) (s : GameState) : Q :=
  Math_min (PI / 4) (Math_max (- PI / 4) (bird_velocity (bird s) * (1 # 10))).

(** [Math.PI] as the binary64 number it is. *)
Definition Math_PI : Q := 884279719003555 # 281474976710656.

(** ** Scenario inputs *)

(** A running session with the bird at height 513 and no pipes; the
    previous frame was drawn at 16 ms. *)
Definition groundOutEnv (velocity : Q) : Env :=
  mkEnv (mkGameState (mkBird 513 velocity 0) [] 0 false true 0) [] 16 0
        (mkUi [] 0 false true false []).

(** A bird at height 100 whose right edge lies on the left edge of the
    upper segment of a pipe at 84. *)
Definition touchingBird : Rect := birdRect 100.
Definition touchingSegment : Rect := topPipeRect (mkPipe 84 150 false).

(** A running session, last impulse accepted at wall-clock time
    [lastJump], bird moving at [velocity]. *)
Definition runningEnv (lastJump : Z) (velocity : Q) : Env :=
  mkEnv (mkGameState (mkBird 200 velocity 0) [] 0 false true 0) [] 16 lastJump
        (mkUi [] 0 false true false []).

(** A session that ended with [finalScore = n], one scored pipe on screen. *)
Definition gameOverEnv (n : Z) : Env :=
  mkEnv (mkGameState (mkBird 513 4 2) [mkPipe (-10) 120 true] n true true 300)
        [] 5000 4000 (mkUi [Hit] n true true false []).

(** [admissible], decided. *)
Definition admissibleb (ev : Event) (e : Env) : bool :=
  match ev with
  | Frame currentTime rnd =>
      Qle_bool (lastFrameTimeRef e) currentTime && Qle_bool 0 rnd && Qltb rnd 1
  | Restart => isGameOver (ui e)
  | _ => true
  end.

(** [run], stopping at the first event that is not admissible. *)
Fixpoint runChecked (evs : list Event) (e : Env) : option Env :=
  match evs with
  | [] => Some e
  | ev :: rest =>
      if admissibleb ev e then runChecked rest (handle ev e) else None
  end.

(** After the admissible events [evs], a frame at [currentTime] is
    admissible and retires the leftmost pipe. *)
Definition retiresFirstPipe (evs : list Event) (currentTime : Q) : bool :=
  match runChecked evs initialEnv with
  | Some e =>
      Qle_bool (lastFrameTimeRef e) currentTime
      && match pipes (gameStateRef e) with
         | p :: _ =>
             offScreen (movePipe (deltaTime currentTime (lastFrameTimeRef e)) p)
         | [] => false
         end
  | None => false
  end.

(** [n] frames 17 ms apart, the first at [t]: each after the first call
    runs with the clamped multiplier 1. *)
Fixpoint framesFrom (n : nat) (t rnd : Q) : list Event :=
  match n with
  | O => []
  | S k => Frame t rnd :: framesFrom k (t + 17) rnd
  end.

(** A flight through the first pipe: Space starts the game, a click every
    49 frames keeps the bird between heights 110 and 200, and the pipe
    (gap from 82.75 to 232.75) travels from 288 to -50. *)
Definition flight : list Event :=
  KeyDown "Space" 1000 :: Frame 17 (1 # 8) :: Click 2000
    :: framesFrom 49 34 (1 # 8)
    ++ Click 3000 :: framesFrom 49 867 (1 # 8)
    ++ Click 4000 :: framesFrom 49 1700 (1 # 8)
    ++ Click 5000 :: framesFrom 22 2533 (1 # 8).

(** A running session in which the leftmost pipe is unscored although
    its trailing edge is left of the anchor, one unit from the left
    world bound.  No run of the component gets here. *)
Definition unscoredAtEdge : GameState :=
  mkGameState (mkBird 200 0 0)
              [mkPipe (-51) 100 false; mkPipe 100 120 false] 0 false true 10.

(** The same with the leftmost pipe scored, as runs of the component
    have it. *)
Definition scoredAtEdge : GameState :=
  mkGameState (mkBird 200 0 0)
              [mkPipe (-51) 100 true; mkPipe 100 120 false] 1 false true 10.

Definition noUi : Ui := mkUi [] 0 false true false [].

(** The session after the Space key and one frame: one pipe at the right
    edge. *)
Definition firstFrameEnv : Env :=
  run [KeyDown "Space" 1000; Frame 17 (1 # 8)] initialEnv.

(** A session over with [n] points, as runs of the component leave it. *)
Definition crashedEnv (n : Z) : Env :=
  mkEnv (mkGameState (mkBird 520 9 1) [mkPipe 120 100 false] n true true 42)
        [] 700 400 (mkUi [Hit] n true true false []).

(** Number of pipes marked as scored. *)
Definition countScored (ps : list Pipe) : Z :=
  Z.of_nat (length (filter pipe_scored ps)).

(** The order in which a session goes through its phases. *)
Definition phaseRank (s : GameState) : nat :=
  if gameOver s then 2 else if gameStarted s then 1 else 0.

(** * Score service: [backend/server.js] and its variant with accounts

    Strings are sequences of UTF-16 code units.  Values of a parsed JSON
    body are kept as far as the handlers tell them apart; numbers are
    exact rationals, so a literal too large for binary64 is not modelled.
    Supabase,
    bcrypt and jsonwebtoken are collaborators: they enter as functions,
    and each handler returns its response together with the database
    calls it made, in order. *)

Definition JsString := list N.

(** A string literal of the source (ASCII). *)
Definition lit (s : string) : JsString :=
  map N_of_ascii (list_ascii_of_string s).

(** Code units that [String.prototype.trim] strips: the white space and
    line terminator characters of ECMAScript. *)
Definition isWhiteSpace (c : N) : bool :=
  existsb (N.eqb c)
    [9; 10; 11; 12; 13; 32; 160; 5760; 8192; 8193; 8194; 8195; 8196; 8197;
     8198; 8199; 8200; 8201; 8202; 8232; 8233; 8239; 8287; 12288; 65279]%N.

Fixpoint trimStart (s : JsString) : JsString :=
  match s with
  | [] => []
  | c :: rest => if isWhiteSpace c then trimStart rest else s
  end.

Definition trimEnd (s : JsString) : JsString := rev (trimStart (rev s)).

Definition trim (s : JsString) : JsString := trimEnd (trimStart s).

(** [s.split(sep)] for a separator of one code unit. *)
Fixpoint splitOn (sep : N) (s : JsString) : list JsString :=
  match s with
  | [] => [[]]
  | c :: rest =>
      if N.eqb c sep then [] :: splitOn sep rest
      else match splitOn sep rest with
           | w :: ws => (c :: w) :: ws
           | [] => [[c]]
           end
  end.

Inductive Json :=
| JUndefined
| JNull
| JBool (b : bool)
| JNumber (n : Q)
| JString (s : JsString)
| JObject.

(** [typeof j === 'string'], [typeof j === 'number'] and JavaScript's
    truthiness. *)
Definition isString (j : Json) : bool :=
  match j with JString _ => true | _ => false end.

Definition isNumber (j : Json) : bool :=
  match j with JNumber _ => true | _ => false end.

Definition truthy (j : Json) : bool :=
  match j with
  | JUndefined | JNull => false
  | JBool b => b
  | JNumber n => negb (Qeq_bool n 0)
  | JString s => negb (Nat.eqb (length s) 0)
  | JObject => true
  end.

(** [const { player_name, score } = req.body] *)
Record ScoresBody := mkScoresBody {
  body_player_name : Json;
  body_score : Json
}.

(** The payload of a verified token, [{ id, username }]. *)
Record User := mkUser {
  user_id : Z;
  user_username : JsString
}.

(** The object handed to [supabase.from('scores').insert]. *)
Record ScoreRow := mkScoreRow {
  row_player_name : JsString;
  row_score : Q;
  row_user_id : option Z
}.

Inductive Body (D : Type) :=
| BodyError (error : string)
| BodyData (data : D).

Arguments BodyError {D} error.
Arguments BodyData {D} data.

Record Response (D : Type) := mkResponse {
  status : Z;
  body : Body D
}.

Arguments mkResponse {D} status body.
Arguments status {D} r.
Arguments body {D} r.

(** [typeof player_name === 'string' && player_name.trim()
       ? player_name.trim().slice(0, 20) : 'Anonymous'] *)
Definition guestName (player_name : Json) : JsString :=
  match player_name with
  | JString s =>
      if truthy (JString (trim s)) then firstn 20 (trim s)
      else lit "Anonymous"
  | _ => lit "Anonymous"
  end.

(** [const token = authHeader && authHeader.split(' ')[1]]; the result
    is [None] when the value is not a non-empty string. *)
Definition bearerToken (authHeader : option JsString) : option JsString :=
  match authHeader with
  | None => None
  | Some h =>
      match nth_error (splitOn 32 h) 1 with
      | Some t => if truthy (JString t) then Some t else None
      | None => None
      end
  end.

Section ScoreService.

(** What Supabase answers to an insert: [None] is an error. *)
Variable Stored : Type.
Variable insertScore : ScoreRow -> option Stored.

(** [jwt.verify(token, JWT_SECRET, ...)]: the payload, or an error. *)
Variable jwtVerify : JsString -> option User.

(** The tail both variants of [POST /api/scores] share: insert and
    answer. *)
Definition insertAndAnswer (row : ScoreRow) : Response Stored * list ScoreRow :=
  match insertScore row with
  | None => (mkResponse 500 (BodyError "Failed to save score"), [row])
  | Some data => (mkResponse 200 (BodyData data), [row])
  end.


(** [optionalAuth]: [req.user] after the middleware. *)
Definition optionalAuth (authHeader : option JsString) : option User :=
  match bearerToken authHeader with
  | Some token => jwtVerify token
  | None => None
  end.

(** [POST /api/scores] of the variant with accounts, behind
    [optionalAuth]. *)
Definition postScoresAuth (authHeader : option JsString) (b : ScoresBody)
  : Response Stored * list ScoreRow :=
  match body_score b with
  | JNumber score =>
      if Qltb score 0 then (mkResponse 400 (BodyError "Invalid score"), [])
      else
        match optionalAuth authHeader with
        | Some user =>
            insertAndAnswer
              (mkScoreRow (user_username user) score (Some (user_id user)))
        | None =>
            insertAndAnswer
              (mkScoreRow (guestName (body_player_name b)) score None)
        end
  | _ => (mkResponse 400 (BodyError "Invalid score"), [])
  end.

End ScoreService.

(** ** The request [submitScore] sends *)

Record SubmitRequest := mkSubmitRequest {
  req_authorization : option JsString;
  req_body : ScoresBody
}.

(** [token] is the React state of that name ([null] is [None]);
    [playerName.trim() || "Anonymous"] is sent only without a token. *)
Definition submitRequest (token : option JsString) (playerName : JsString)
           (finalScore : Z) : SubmitRequest :=
  match token with
  | Some t =>
      if truthy (JString t) then
        mkSubmitRequest (Some (lit "Bearer " ++ t))
          (mkScoresBody JUndefined (JNumber (inject_Z finalScore)))
      else
        mkSubmitRequest None
          (mkScoresBody
             (JString (if truthy (JString (trim playerName))
                       then trim playerName else lit "Anonymous"))
             (JNumber (inject_Z finalScore)))
  | None =>
      mkSubmitRequest None
        (mkScoresBody
           (JString (if truthy (JString (trim playerName))
                     then trim playerName else lit "Anonymous"))
           (JNumber (inject_Z finalScore)))
  end.

(** ** Registration: [POST /api/auth/register] *)

(** [const { username, password } = req.body] *)
Record RegisterBody := mkRegisterBody {
  body_username : Json;
  body_password : Json
}.

(** The object handed to [supabase.from('players').insert]. *)
Record PlayerRow := mkPlayerRow {
  row_username : JsString;
  row_password_hash : JsString
}.

(** What Supabase answers: the stored player, error code 23505 (the
    [UNIQUE] constraint on [players.username]), or another error. *)
Inductive InsertResult (P : Type) :=
| Inserted (player : P)
| UniqueViolation
| OtherError.

Arguments Inserted {P} player.
Arguments UniqueViolation {P}.
Arguments OtherError {P}.

(** [username.trim().length < 2 || username.trim().length > 20] *)
Definition badLength (s : JsString) : bool :=
  Nat.ltb (length (trim s)) 2 || Nat.ltb 20 (length (trim s)).

Section Registration.

Variable Player : Type.
Variable playerUser : Player -> User.
Variable bcryptHash : JsString -> JsString.
Variable insertPlayer : PlayerRow -> InsertResult Player.
Variable jwtSign : User -> JsString.

Definition postRegister (b : RegisterBody)
  : Response (Player * JsString) * list PlayerRow :=
  match body_username b with
  | JString username =>
      if negb (truthy (JString username)) || badLength username then
        (mkResponse 400 (BodyError "Username must be 2-20 characters"), [])
      else
        match body_password b with
        | JString password =>
            if negb (truthy (JString password))
               || Nat.ltb (length password) 4 then
              (mkResponse 400
                 (BodyError "Password must be at least 4 characters"), [])
            else
              let row := mkPlayerRow (trim username) (bcryptHash password) in
              match insertPlayer row with
              | Inserted data =>
                  (mkResponse 201 (BodyData (data, jwtSign (playerUser data))),
                   [row])
              | UniqueViolation =>
                  (mkResponse 409 (BodyError "Username already taken"), [row])
              | OtherError =>
                  (mkResponse 500 (BodyError "Failed to register"), [row])
              end
        | _ =>
            (mkResponse 400
               (BodyError "Password must be at least 4 characters"), [])
        end
  | _ => (mkResponse 400 (BodyError "Username must be 2-20 characters"), [])
  end.

End Registration.

(** No code unit of the string is a space. *)
Definition noSpace (s : JsString) : bool :=
  forallb (fun c => negb (N.eqb c 32)) s.

(** ** Score glyphs *)

(** The decimal digits of a non-negative integer, least significant
    first; [fuel] bounds the number of digits. *)
Fixpoint digitsRev (fuel : nat) (n : Z) : list Z :=
  match fuel with
  | O => []
  | S f =>
      if (n <? 10)%Z then [n]
      else (n mod 10)%Z :: digitsRev f (n / 10)%Z
  end.

(** [state.score.toString()] as the list of its digits, for a score that
    is not negative. *)
Definition scoreDigits (n : Z) : list Z :=
  rev (digitsRev (S (Z.to_nat n)) n).

(** The number a list of digits, least significant first, stands for. *)
Fixpoint valueRev (ds : list Z) : Z :=
  match ds with
  | [] => 0
  | d :: rest => (d + 10 * valueRev rest)%Z
  end.

(** [sx = (canvas.width - ss.length * dw) / 2] with [dw = 24] *)
Definition glyphStart (count : nat) : Q :=
  (CANVAS_WIDTH - inject_Z (Z.of_nat count) * 24) / 2.

(** The [drawImage] calls of the score loop: sprite index and left edge
    [sx + i * dw] of each glyph, from index [i] on. *)
Fixpoint placeGlyphs (sx : Q) (i : nat) (ds : list Z) : list (Z * Q) :=
  match ds with
  | [] => []
  | d :: rest =>
      (d, sx + inject_Z (Z.of_nat i) * 24) :: placeGlyphs sx (S i) rest
  end.

Definition scoreGlyphs (n : Z) : list (Z * Q) :=
  placeGlyphs (glyphStart (length (scoreDigits n))) 0 (scoreDigits n).

(** * Properties *)

(** ** Timebase normaliser *)

Section Timebase.

(** One frame at the target rate lasts [1000 / TARGET_FPS] ms. *)
Lemma frames_of_ms (t : Q) : t / (1000 / TARGET_FPS) == t * (3 # 50).
Proof. unfold TARGET_FPS. field. Qed.

Lemma Math_min_le_r (a b : Q) : Math_min a b <= b.
Proof.
  unfold Math_min. destruct (Qle_bool a b) eqn:E.
  - now apply Qle_bool_iff.
  - apply Qle_refl.
Qed.

Lemma Math_min_small (a b : Q) : a <= b -> Math_min a b = a.
Proof.
  intro H. unfold Math_min. apply Qle_bool_iff in H. now rewrite H.
Qed.

Lemma Math_min_large (a b : Q) : b <= a -> Math_min a b == b.
Proof.
  intro H. unfold Math_min. destruct (Qle_bool a b) eqn:E.
  - apply Qle_bool_iff in E. now apply Qle_antisym.
  - reflexivity.
Qed.

Lemma Math_min_clamped (a b : Q) : b < a -> Math_min a b = b.
Proof.
  intro H. unfold Math_min. destruct (Qle_bool a b) eqn:E.
  - apply Qle_bool_iff in E. exfalso. exact (Qlt_not_le _ _ H E).
  - reflexivity.
Qed.

Lemma elapsed_first (currentTime : Q) : elapsed currentTime 0 == 0.
Proof. unfold elapsed, initLastFrameTime. simpl. ring. Qed.

Lemma elapsed_later (currentTime last : Q) :
  ~ last == 0 -> elapsed currentTime last = currentTime - last.
Proof.
  intro H. unfold elapsed, initLastFrameTime.
  destruct (Qeq_bool last 0) eqn:E; [|reflexivity].
  apply Qeq_bool_iff in E. contradiction.
Qed.

Lemma elapsed_nonneg (currentTime last : Q) :
  last <= currentTime -> 0 <= elapsed currentTime last.
Proof.
  intro H. unfold elapsed, initLastFrameTime.
  destruct (Qeq_bool last 0); lra.
Qed.

Lemma deltaTime_elapsed (currentTime last : Q) :
  deltaTime currentTime last
  = Math_min (elapsed currentTime last / (1000 / TARGET_FPS)) MAX_DELTA_TIME.
Proof. reflexivity. Qed.

Lemma deltaTime_le_1 (currentTime last : Q) : deltaTime currentTime last <= 1.
Proof. unfold deltaTime. apply Math_min_le_r. Qed.

Lemma deltaTime_nonneg (currentTime last : Q) :
  last <= currentTime -> 0 <= deltaTime currentTime last.
Proof.
  intro H. apply elapsed_nonneg in H. rewrite deltaTime_elapsed.
  unfold Math_min, MAX_DELTA_TIME.
  destruct (Qle_bool _ _); [rewrite frames_of_ms|]; lra.
Qed.

Lemma deltaTime_first (currentTime : Q) : deltaTime currentTime 0 == 0.
Proof.
  rewrite deltaTime_elapsed, Math_min_small.
  - rewrite frames_of_ms, elapsed_first. ring.
  - rewrite frames_of_ms, elapsed_first. unfold MAX_DELTA_TIME. lra.
Qed.

Lemma deltaTime_pause (currentTime last : Q) :
  ~ last == 0 -> 1000 / 60 < currentTime - last ->
  deltaTime currentTime last = MAX_DELTA_TIME.
Proof.
  intros H0 Hp. rewrite deltaTime_elapsed. apply Math_min_clamped.
  rewrite (elapsed_later _ _ H0), frames_of_ms. unfold MAX_DELTA_TIME.
  assert (E : 1000 / 60 == 50 # 3) by reflexivity. rewrite E in Hp. lra.
Qed.

End Timebase.

(** ** Obstacle stream: moving and retiring *)

Section Retirement.

Variable dt : Q.

Lemma movePipes_spec (i : nat) (ps : list Pipe) :
  movePipes dt i ps
  = (map (movePipe dt) ps, offScreenFrom i (map (movePipe dt) ps)).
Proof.
  revert i. induction ps as [|p rest IH]; intro i; simpl.
  - reflexivity.
  - rewrite IH. reflexivity.
Qed.

Lemma splice1_middle {A : Type} (k : list A) (a : A) (l : list A) :
  splice1 (length k) (k ++ a :: l) = k ++ l.
Proof.
  unfold splice1.
  rewrite firstn_app, Nat.sub_diag, firstn_all, firstn_O, app_nil_r.
  rewrite skipn_app, skipn_all2 by lia.
  replace (S (length k) - length k)%nat with 1%nat by lia.
  reflexivity.
Qed.

Lemma removePipes_fold (rm : list nat) (ps : list Pipe) :
  removePipes rm ps = fold_right splice1 ps rm.
Proof.
  unfold removePipes.
  rewrite <- (rev_involutive rm) at 2.
  now rewrite fold_left_rev_right.
Qed.

(** Splicing from the highest index down never shifts an index that is
    still to be spliced: what remains is the list filtered in place. *)
Lemma removePipes_offScreen (k ps : list Pipe) :
  removePipes (offScreenFrom (length k) ps) (k ++ ps)
  = k ++ filter (fun p => negb (offScreen p)) ps.
Proof.
  rewrite removePipes_fold. revert k.
  induction ps as [|p rest IH]; intro k; simpl.
  - reflexivity.
  - specialize (IH (k ++ [p])).
    rewrite length_app, Nat.add_1_r, <- !app_assoc in IH. simpl in IH.
    destruct (offScreen p); simpl.
    + rewrite IH. apply splice1_middle.
    + exact IH.
Qed.

Lemma removePipes_survivors (ps : list Pipe) :
  removePipes (offScreenFrom 0 (map (movePipe dt) ps)) (map (movePipe dt) ps)
  = survivors dt ps.
Proof. exact (removePipes_offScreen [] (map (movePipe dt) ps)). Qed.

Lemma retire_filter (ps : list Pipe) :
  (let '(moved, rm) := movePipes dt 0 ps in removePipes rm moved)
  = survivors dt ps.
Proof. rewrite movePipes_spec. apply removePipes_survivors. Qed.

End Retirement.

(** ** The scoring and collision loop *)

Section CheckLoop.

Variable y : Q.

Lemma scorePipe_geometry (p : Pipe) (sc : Z) (u : Ui) :
  pipe_x (fst (fst (scorePipe p sc u))) = pipe_x p
  /\ pipe_topHeight (fst (fst (scorePipe p sc u))) = pipe_topHeight p.
Proof.
  unfold scorePipe. destruct (_ && _); simpl; auto.
Qed.

Lemma scorePipe_collides (p : Pipe) (sc : Z) (u : Ui) :
  intersects (birdRect y) (topPipeRect (fst (fst (scorePipe p sc u))))
  = intersects (birdRect y) (topPipeRect p)
  /\ intersects (birdRect y) (bottomPipeRect (fst (fst (scorePipe p sc u))))
     = intersects (birdRect y) (bottomPipeRect p).
Proof.
  unfold scorePipe. destruct (_ && _); simpl; auto.
Qed.

(** The loop sets [state.gameOver] exactly when some pipe of the array
    overlaps the bird. *)
Lemma checkPipes_over (ps : list Pipe) (sc : Z) (u : Ui) :
  snd (fst (checkPipes y ps sc u)) = existsb (collides y) ps.
Proof.
  revert sc u. induction ps as [|p rest IH]; intros sc u; simpl.
  - reflexivity.
  - destruct (scorePipe_collides p sc u) as [Ht Hb].
    destruct (scorePipe p sc u) as [[p1 sc1] u1]. simpl in Ht, Hb.
    unfold collides at 1. rewrite Ht, Hb.
    destruct (intersects (birdRect y) (topPipeRect p)); simpl; [reflexivity|].
    destruct (intersects (birdRect y) (bottomPipeRect p)); simpl; [reflexivity|].
    specialize (IH sc1 u1).
    destruct (checkPipes y rest sc1 u1) as [[[rest' sc'] over] u']. exact IH.
Qed.

Lemma hit_isGameOver (sc : Z) (u : Ui) :
  isGameOver (hit sc u) = true /\ finalScore (hit sc u) = sc.
Proof. unfold hit, queueSound. simpl. auto. Qed.

(** A [break] leaves the React state saying so, with the score frozen. *)
Lemma checkPipes_hit (ps : list Pipe) (sc : Z) (u : Ui) :
  snd (fst (checkPipes y ps sc u)) = true ->
  isGameOver (snd (checkPipes y ps sc u)) = true
  /\ finalScore (snd (checkPipes y ps sc u))
     = snd (fst (fst (checkPipes y ps sc u))).
Proof.
  revert sc u. induction ps as [|p rest IH]; intros sc u; simpl.
  - discriminate.
  - destruct (scorePipe p sc u) as [[p1 sc1] u1].
    destruct (intersects _ (topPipeRect p1));
      [intros _; apply hit_isGameOver|].
    destruct (intersects _ (bottomPipeRect p1));
      [intros _; apply hit_isGameOver|].
    specialize (IH sc1 u1).
    destruct (checkPipes y rest sc1 u1) as [[[rest' sc'] over] u'].
    exact IH.
Qed.

(** The loop moves no pipe and changes no gap. *)
Lemma checkPipes_geometry (ps : list Pipe) (sc : Z) (u : Ui) :
  map pipe_x (fst (fst (fst (checkPipes y ps sc u)))) = map pipe_x ps
  /\ map pipe_topHeight (fst (fst (fst (checkPipes y ps sc u))))
     = map pipe_topHeight ps.
Proof.
  revert sc u. induction ps as [|p rest IH]; intros sc u; simpl.
  - auto.
  - destruct (scorePipe_geometry p sc u) as [Hx Hh].
    destruct (scorePipe p sc u) as [[p1 sc1] u1]. simpl in Hx, Hh.
    destruct (intersects _ (topPipeRect p1)); simpl;
      [rewrite Hx, Hh; auto|].
    destruct (intersects _ (bottomPipeRect p1)); simpl;
      [rewrite Hx, Hh; auto|].
    specialize (IH sc1 u1).
    destruct (checkPipes y rest sc1 u1) as [[[rest' sc'] over] u'].
    simpl in *. destruct IH as [-> ->]. rewrite Hx, Hh. auto.
Qed.

(** When the loop runs to its end, every pipe whose trailing edge is
    left of the anchor is marked. *)
Lemma checkPipes_marks (ps : list Pipe) (sc : Z) (u : Ui) :
  snd (fst (checkPipes y ps sc u)) = false ->
  Forall (fun p => pipe_x p + PIPE_WIDTH < 50 -> pipe_scored p = true)
         (fst (fst (fst (checkPipes y ps sc u)))).
Proof.
  revert sc u. induction ps as [|p rest IH]; intros sc u; simpl.
  - constructor.
  - assert (Hp : forall q, q = fst (fst (scorePipe p sc u)) ->
                 pipe_x q + PIPE_WIDTH < 50 -> pipe_scored q = true).
    { intros q ->. unfold scorePipe.
      destruct (pipe_scored p) eqn:Es; simpl.
      - intros _. exact Es.
      - destruct (Qltb (pipe_x p + PIPE_WIDTH) 50) eqn:El; simpl.
        + reflexivity.
        + apply Qltb_false in El. intro H. exfalso.
          exact (Qlt_not_le _ _ H El). }
    destruct (scorePipe p sc u) as [[p1 sc1] u1]. simpl in Hp.
    destruct (intersects _ (topPipeRect p1)); simpl; [discriminate|].
    destruct (intersects _ (bottomPipeRect p1)); simpl; [discriminate|].
    specialize (IH sc1 u1).
    destruct (checkPipes y rest sc1 u1) as [[[rest' sc'] over] u'].
    simpl in *. intro Ho. constructor; [now apply Hp | now apply IH].
Qed.

End CheckLoop.

(** ** One running frame *)

Section RunningFrame.

Variables dt rnd : Q.

(** The array the scoring and collision loop walks over. *)
Lemma update_spec (s : GameState) (u : Ui) :
  update dt rnd s u
  = let y := nextY dt s in
    let r := checkPipes y (spawnPipe rnd (survivors dt (pipes s))) (score s) u in
    let frameCount' := (frameCount s + 1)%Z in
    let frame := if (Z.rem frameCount' 5 =? 0)%Z
                 then Z.rem (bird_frame (bird s) + 1) 3
                 else bird_frame (bird s) in
    (mkGameState (mkBird y (nextVelocity dt s) frame)
                 (fst (fst (fst r))) (snd (fst (fst r)))
                 (outOfBounds y || snd (fst r)) (gameStarted s) frameCount',
     if outOfBounds y then hit (snd (fst (fst r))) (snd r) else snd r).
Proof.
  unfold update. rewrite movePipes_spec, removePipes_survivors.
  fold (nextVelocity dt s). fold (nextY dt s).
  destruct (checkPipes _ _ _ _) as [[[ps' sc'] over] u1]. simpl.
  destruct (outOfBounds (nextY dt s)); reflexivity.
Qed.

Lemma update_bird (s : GameState) (u : Ui) :
  bird_y (bird (fst (update dt rnd s u))) = nextY dt s
  /\ bird_velocity (bird (fst (update dt rnd s u))) = nextVelocity dt s.
Proof. rewrite update_spec. simpl. auto. Qed.

Lemma update_pipes (s : GameState) (u : Ui) :
  pipes (fst (update dt rnd s u))
  = fst (fst (fst (checkPipes (nextY dt s)
                     (spawnPipe rnd (survivors dt (pipes s))) (score s) u))).
Proof. rewrite update_spec. reflexivity. Qed.

Lemma update_gameOver (s : GameState) (u : Ui) :
  gameOver (fst (update dt rnd s u))
  = outOfBounds (nextY dt s)
    || existsb (collides (nextY dt s)) (spawnPipe rnd (survivors dt (pipes s))).
Proof. rewrite update_spec. simpl. now rewrite checkPipes_over. Qed.

Lemma update_gameStarted (s : GameState) (u : Ui) :
  gameStarted (fst (update dt rnd s u)) = gameStarted s.
Proof. rewrite update_spec. reflexivity. Qed.

End RunningFrame.

(** ** World bounds *)

Section Bounds.

Lemma outOfBounds_true (y : Q) :
  outOfBounds y = true <-> CANVAS_HEIGHT < y \/ y < 0.
Proof.
  unfold outOfBounds, Qgtb. rewrite orb_true_iff, !Qltb_true. tauto.
Qed.

Lemma outOfBounds_false (y : Q) :
  outOfBounds y = false <-> 0 <= y /\ y <= CANVAS_HEIGHT.
Proof.
  unfold outOfBounds, Qgtb. rewrite orb_false_iff, !Qltb_false. tauto.
Qed.

Lemma frameWith_running (dt currentTime rnd : Q) (e : Env) :
  phase (gameStateRef e) = Some Running ->
  frameWith dt currentTime rnd e
  = mkEnv (fst (update dt rnd (gameStateRef e) (set_pendingSounds [] (ui e))))
          (detached e) currentTime (lastJumpTimeRef e)
          (snd (update dt rnd (gameStateRef e) (set_pendingSounds [] (ui e)))).
Proof.
  unfold phase, frameWith. intro H.
  destruct (gameStarted (gameStateRef e)), (gameOver (gameStateRef e));
    try discriminate. simpl.
  now destruct (update _ _ _ _).
Qed.

Lemma frameWith_idle (dt currentTime rnd : Q) (e : Env) :
  phase (gameStateRef e) <> Some Running ->
  frameWith dt currentTime rnd e
  = mkEnv (gameStateRef e) (detached e) currentTime (lastJumpTimeRef e)
          (set_pendingSounds [] (ui e)).
Proof.
  unfold phase, frameWith. intro H.
  destruct (gameStarted (gameStateRef e)), (gameOver (gameStateRef e));
    simpl; try reflexivity. now elim H.
Qed.

Lemma nextY_falling (dt : Q) (s : GameState) :
  0 <= dt -> 0 <= bird_velocity (bird s) -> bird_y (bird s) <= nextY dt s.
Proof.
  intros Hd Hv. unfold nextY, nextVelocity, GRAVITY.
  assert (H : 0 <= (bird_velocity (bird s) + (3 # 10) * dt) * dt).
  { apply Qmult_le_0_compat; lra. }
  lra.
Qed.

End Bounds.

(** C5 (as amended).  The bounds test of a running frame reads the bird's
    height after that frame's integration step: whenever this height is
    above the canvas height or below zero, the frame ends in phase Over,
    whatever the pipes are; a bird at height 513 that is not moving
    upwards is such a case for every frame of the host. *)
Theorem out_of_bounds_terminal (currentTime rnd : Q) (e : Env) :
  phase (gameStateRef e) = Some Running ->
  let dt := deltaTime currentTime (lastFrameTimeRef e) in
  let e' := gameLoop currentTime rnd e in
  (CANVAS_HEIGHT < nextY dt (gameStateRef e) \/ nextY dt (gameStateRef e) < 0 ->
   phase (gameStateRef e') = Some Over
   /\ isGameOver (ui e') = true
   /\ finalScore (ui e') = score (gameStateRef e'))
  /\ (bird_y (bird (gameStateRef e)) == 513 ->
      0 <= bird_velocity (bird (gameStateRef e)) ->
      lastFrameTimeRef e <= currentTime ->
      phase (gameStateRef e') = Some Over).
Proof.
  intros Hrun dt e'.
  assert (Hgo : CANVAS_HEIGHT < nextY dt (gameStateRef e)
                \/ nextY dt (gameStateRef e) < 0 ->
                phase (gameStateRef e') = Some Over
                /\ isGameOver (ui e') = true
                /\ finalScore (ui e') = score (gameStateRef e')).
  { intro Hout. apply outOfBounds_true in Hout.
    unfold e', gameLoop. fold dt. rewrite (frameWith_running _ _ _ _ Hrun).
    cbn [gameStateRef ui].
    unfold phase. rewrite update_gameStarted, update_gameOver, Hout.
    unfold phase in Hrun. destruct (gameStarted (gameStateRef e)),
      (gameOver (gameStateRef e)); try discriminate.
    split; [reflexivity|].
    rewrite update_spec. cbn -[checkPipes hit]. rewrite Hout.
    apply hit_isGameOver. }
  split; [exact Hgo|].
  intros Hy Hv Ht. apply Hgo. left.
  pose proof (nextY_falling dt (gameStateRef e)
                (deltaTime_nonneg _ _ Ht) Hv) as Hn.
  unfold CANVAS_HEIGHT. lra.
Qed.

Lemma out_of_bounds_terminal_witness :
  phase (gameStateRef (gameLoop 32 0 (groundOutEnv 0))) = Some Over.
Proof.
  apply (out_of_bounds_terminal 32 0 (groundOutEnv 0)).
  - reflexivity.
  - reflexivity.
  - vm_compute. discriminate.
  - vm_compute. discriminate.
Defined.

(** C5 (as stated) fails: a bird at height 513 that has just taken an
    impulse is carried back below the canvas height by the integration
    step before the bounds are tested, and the frame stays Running. *)
Lemma out_of_bounds_not_always_terminal :
  let e := groundOutEnv (- JUMP_STRENGTH) in
  phase (gameStateRef e) = Some Running
  /\ outOfBounds (bird_y (bird (gameStateRef e))) = true
  /\ phase (gameStateRef (gameLoop 1016 0 e)) = Some Running.
Proof. vm_compute. auto. Qed.

(** ** Collision test *)

Section Collision.

Lemma intersects_true (a b : Rect) :
  intersects a b = true <-> overlapsX a b /\ overlapsY a b.
Proof.
  unfold intersects, overlapsX, overlapsY, Qgtb.
  rewrite !andb_true_iff, !Qltb_true. tauto.
Qed.

Lemma intersects_false (a b : Rect) :
  intersects a b = false <-> ~ (overlapsX a b /\ overlapsY a b).
Proof.
  rewrite <- intersects_true. destruct (intersects a b); split; intro H.
  - discriminate.
  - elim H. reflexivity.
  - discriminate.
  - reflexivity.
Qed.

Lemma touching_no_collision (a b : Rect) :
  touching a b -> intersects a b = false.
Proof.
  intro H. apply intersects_false. unfold overlapsX, overlapsY.
  intros [[H1 H2] [H3 H4]]. destruct H as [H|[H|[H|H]]]; lra.
Qed.

(** From a touching position, one unit further in: the four sides. *)
Lemma one_unit_left_edge (a b : Rect) :
  rect_x a + rect_width a == rect_x b -> 1 < rect_width a + rect_width b ->
  overlapsY a b -> intersects (shiftRect 1 0 a) b = true.
Proof.
  intros H Hw [H1 H2]. apply intersects_true.
  unfold overlapsX, overlapsY, shiftRect. simpl. repeat split; lra.
Qed.

Lemma one_unit_right_edge (a b : Rect) :
  rect_x b + rect_width b == rect_x a -> 1 < rect_width a + rect_width b ->
  overlapsY a b -> intersects (shiftRect (-1) 0 a) b = true.
Proof.
  intros H Hw [H1 H2]. apply intersects_true.
  unfold overlapsX, overlapsY, shiftRect. simpl. repeat split; lra.
Qed.

Lemma one_unit_top_edge (a b : Rect) :
  rect_y a + rect_height a == rect_y b -> 1 < rect_height a + rect_height b ->
  overlapsX a b -> intersects (shiftRect 0 1 a) b = true.
Proof.
  intros H Hw [H1 H2]. apply intersects_true.
  unfold overlapsX, overlapsY, shiftRect. simpl. repeat split; lra.
Qed.

Lemma one_unit_bottom_edge (a b : Rect) :
  rect_y b + rect_height b == rect_y a -> 1 < rect_height a + rect_height b ->
  overlapsX a b -> intersects (shiftRect 0 (-1) a) b = true.
Proof.
  intros H Hw [H1 H2]. apply intersects_true.
  unfold overlapsX, overlapsY, shiftRect. simpl. repeat split; lra.
Qed.

(** A pipe of the checked array that overlaps the bird ends the game. *)
Lemma update_collision (dt rnd : Q) (s : GameState) (u : Ui) (p : Pipe) :
  In p (spawnPipe rnd (survivors dt (pipes s))) ->
  collides (nextY dt s) p = true ->
  gameOver (fst (update dt rnd s u)) = true
  /\ isGameOver (snd (update dt rnd s u)) = true.
Proof.
  intros Hin Hc.
  assert (Hex : existsb (collides (nextY dt s))
                  (spawnPipe rnd (survivors dt (pipes s))) = true).
  { apply existsb_exists. now exists p. }
  split.
  - rewrite update_gameOver, Hex. apply orb_true_r.
  - rewrite update_spec. cbn -[checkPipes hit].
    destruct (outOfBounds (nextY dt s)); [apply hit_isGameOver|].
    rewrite <- checkPipes_over with (sc := score s) (u := u) in Hex.
    now apply checkPipes_hit.
Qed.

End Collision.

(** C3.  The overlap test is strict on all four sides: rectangles that
    share an edge line do not collide; moved one unit further in on
    either axis, with the other axis overlapping, they do; and a pipe
    segment that overlaps the bird in a running frame ends the frame in
    phase Over. *)
Theorem collision_boundary (a b : Rect) :
  (intersects a b = true <-> overlapsX a b /\ overlapsY a b)
  /\ (touching a b -> intersects a b = false)
  /\ (1 < rect_width a + rect_width b -> overlapsY a b ->
      (rect_x a + rect_width a == rect_x b ->
       intersects (shiftRect 1 0 a) b = true)
      /\ (rect_x b + rect_width b == rect_x a ->
          intersects (shiftRect (-1) 0 a) b = true))
  /\ (1 < rect_height a + rect_height b -> overlapsX a b ->
      (rect_y a + rect_height a == rect_y b ->
       intersects (shiftRect 0 1 a) b = true)
      /\ (rect_y b + rect_height b == rect_y a ->
          intersects (shiftRect 0 (-1) a) b = true))
  /\ (forall currentTime rnd e p,
        phase (gameStateRef e) = Some Running ->
        let dt := deltaTime currentTime (lastFrameTimeRef e) in
        In p (spawnPipe rnd (survivors dt (pipes (gameStateRef e)))) ->
        a = birdRect (nextY dt (gameStateRef e)) ->
        b = topPipeRect p \/ b = bottomPipeRect p ->
        intersects a b = true ->
        phase (gameStateRef (gameLoop currentTime rnd e)) = Some Over).
Proof.
  split; [apply intersects_true|].
  split; [apply touching_no_collision|].
  split; [intros Hw Hy; split; intro H;
          [now apply one_unit_left_edge | now apply one_unit_right_edge]|].
  split; [intros Hh Hx; split; intro H;
          [now apply one_unit_top_edge | now apply one_unit_bottom_edge]|].
  intros currentTime rnd e p Hrun dt Hin -> Hb Hi.
  assert (Hc : collides (nextY dt (gameStateRef e)) p = true).
  { unfold collides. destruct Hb as [-> | ->]; rewrite Hi;
      [reflexivity | apply orb_true_r]. }
  destruct (update_collision dt rnd (gameStateRef e)
              (set_pendingSounds [] (ui e)) p Hin Hc) as [Hgo _].
  unfold gameLoop. fold dt. rewrite (frameWith_running _ _ _ _ Hrun).
  cbn [gameStateRef]. unfold phase.
  rewrite update_gameStarted, Hgo.
  unfold phase in Hrun.
  destruct (gameStarted (gameStateRef e)), (gameOver (gameStateRef e));
    try discriminate; reflexivity.
Qed.

Lemma collision_boundary_witness :
  intersects touchingBird touchingSegment = false
  /\ intersects (shiftRect 1 0 touchingBird) touchingSegment = true.
Proof.
  destruct (collision_boundary touchingBird touchingSegment)
    as (_ & Htouch & Hx & _).
  split.
  - apply Htouch. left. reflexivity.
  - apply Hx.
    + reflexivity.
    + split; reflexivity.
    + reflexivity.
Defined.

(** ** Impulses *)

Section Impulse.

Lemma jump_rejected (now : Z) (e : Env) :
  (now - lastJumpTimeRef e < JUMP_COOLDOWN)%Z -> jump now e = e.
Proof.
  intro H. unfold jump. apply Z.ltb_lt in H. now rewrite H.
Qed.

Lemma jump_accepted (now : Z) (e : Env) :
  (JUMP_COOLDOWN <= now - lastJumpTimeRef e)%Z ->
  jump now e
  = let state := gameStateRef e in
    if negb (gameOver state) && gameStarted state then
      mkEnv (set_velocity (- JUMP_STRENGTH) state) (detached e)
            (lastFrameTimeRef e) now (ui e)
    else if negb (gameStarted state) then
      mkEnv (set_gameStarted true state) (detached e) 0 now
            (setIsGameStarted true (ui e))
    else
      mkEnv state (detached e) (lastFrameTimeRef e) now (ui e).
Proof.
  intro H. unfold jump. apply Z.ltb_ge in H. now rewrite H.
Qed.

Lemma jump_accepted_stamp (now : Z) (e : Env) :
  (JUMP_COOLDOWN <= now - lastJumpTimeRef e)%Z ->
  lastJumpTimeRef (jump now e) = now.
Proof.
  intro H. rewrite (jump_accepted _ _ H). cbv zeta.
  destruct (negb _ && _); [reflexivity|]. now destruct (negb _).
Qed.

Lemma jump_running (now : Z) (e : Env) :
  (JUMP_COOLDOWN <= now - lastJumpTimeRef e)%Z ->
  phase (gameStateRef e) = Some Running ->
  jump now e
  = mkEnv (set_velocity (- JUMP_STRENGTH) (gameStateRef e)) (detached e)
          (lastFrameTimeRef e) now (ui e).
Proof.
  intros H Hp. rewrite (jump_accepted _ _ H). unfold phase in Hp. cbv zeta.
  destruct (gameStarted (gameStateRef e)), (gameOver (gameStateRef e));
    try discriminate; reflexivity.
Qed.

Lemma jump_notStarted (now : Z) (e : Env) :
  (JUMP_COOLDOWN <= now - lastJumpTimeRef e)%Z ->
  phase (gameStateRef e) = Some NotStarted ->
  jump now e
  = mkEnv (set_gameStarted true (gameStateRef e)) (detached e) 0 now
          (setIsGameStarted true (ui e)).
Proof.
  intros H Hp. rewrite (jump_accepted _ _ H). unfold phase in Hp. cbv zeta.
  destruct (gameStarted (gameStateRef e)), (gameOver (gameStateRef e));
    try discriminate; reflexivity.
Qed.

Lemma jump_over (now : Z) (e : Env) :
  (JUMP_COOLDOWN <= now - lastJumpTimeRef e)%Z ->
  phase (gameStateRef e) = Some Over ->
  jump now e
  = mkEnv (gameStateRef e) (detached e) (lastFrameTimeRef e) now (ui e).
Proof.
  intros H Hp. rewrite (jump_accepted _ _ H). unfold phase in Hp. cbv zeta.
  destruct (gameStarted (gameStateRef e)), (gameOver (gameStateRef e));
    try discriminate; reflexivity.
Qed.

(** Frames never write the cooldown clock, whatever their step. *)
Lemma frameWith_lastJumpTime (dt currentTime rnd : Q) (e : Env) :
  lastJumpTimeRef (frameWith dt currentTime rnd e) = lastJumpTimeRef e.
Proof.
  unfold frameWith. destruct (negb _); [reflexivity|].
  destruct (negb _); [|reflexivity]. now destruct (update _ _ _ _).
Qed.

Lemma frames_lastJumpTime (evs : list Event) (e : Env) :
  Forall isFrame evs ->
  lastJumpTimeRef (run evs e) = lastJumpTimeRef e.
Proof.
  intro H. revert e. induction H as [|ev evs Hev _ IH]; intro e.
  - reflexivity.
  - destruct ev; try contradiction. unfold run in *. simpl.
    rewrite IH. apply frameWith_lastJumpTime.
Qed.

End Impulse.

(** C4.  [jump] drops a request made less than [JUMP_COOLDOWN] ms of
    wall-clock time after the last accepted one, leaving every ref and
    the React state as they were; an accepted request becomes the new
    reference time.  Frames do not touch that clock.  Hence, after an
    accepted impulse at [now] and any number of frames, a request at
    [now + 50] changes nothing, while a request at [now + 250] is
    accepted and, the session still running, sets the velocity again. *)
Theorem jump_cooldown (now : Z) (e : Env) (evs : list Event) :
  (JUMP_COOLDOWN <= now - lastJumpTimeRef e)%Z ->
  Forall isFrame evs ->
  let e1 := run evs (jump now e) in
  (forall t e0, (t - lastJumpTimeRef e0 < JUMP_COOLDOWN)%Z -> jump t e0 = e0)
  /\ lastJumpTimeRef (jump now e) = now
  /\ lastJumpTimeRef e1 = now
  /\ jump (now + 50) e1 = e1
  /\ lastJumpTimeRef (jump (now + 250) e1) = (now + 250)%Z
  /\ (phase (gameStateRef e1) = Some Running ->
      gameStateRef (jump (now + 250) e1)
      = set_velocity (- JUMP_STRENGTH) (gameStateRef e1)).
Proof.
  intros Hacc Hfr e1.
  assert (H1 : lastJumpTimeRef e1 = now).
  { unfold e1. rewrite (frames_lastJumpTime _ _ Hfr).
    now apply jump_accepted_stamp. }
  assert (H250 : (JUMP_COOLDOWN <= now + 250 - lastJumpTimeRef e1)%Z).
  { rewrite H1. unfold JUMP_COOLDOWN. lia. }
  split; [exact jump_rejected|].
  split; [now apply jump_accepted_stamp|].
  split; [exact H1|].
  split; [apply jump_rejected; rewrite H1; unfold JUMP_COOLDOWN; lia|].
  split; [now apply jump_accepted_stamp|].
  intro Hrun. now rewrite (jump_running _ _ H250 Hrun).
Qed.

Lemma jump_cooldown_witness :
  let e1 := run [Frame 32 0; Frame 48 0] (jump 1000 (runningEnv 0 2)) in
  jump 1050 e1 = e1
  /\ bird_velocity (bird (gameStateRef e1)) == - (6924 # 1000)
  /\ bird_velocity (bird (gameStateRef (jump 1250 e1))) = - JUMP_STRENGTH.
Proof.
  intro e1.
  destruct (jump_cooldown 1000 (runningEnv 0 2) [Frame 32 0; Frame 48 0])
    as (_ & _ & _ & H50 & _ & H250).
  - vm_compute. discriminate.
  - repeat constructor.
  - split; [exact H50|]. split; [vm_compute; reflexivity|].
    fold e1 in H250. change (1000 + 250)%Z with 1250%Z in H250.
    rewrite H250; reflexivity.
Defined.

(** C7.  What an accepted impulse does is decided by the phase alone:
    Running, the velocity becomes [- JUMP_STRENGTH] whatever it was and
    nothing else of the session changes; NotStarted, the session becomes
    Running with its velocity as it was; Over, the session is left as it
    is, and the pointer handlers leave every ref as it is. *)
Theorem impulse_by_phase (now : Z) (e : Env) :
  (JUMP_COOLDOWN <= now - lastJumpTimeRef e)%Z ->
  let s := gameStateRef e in
  let s' := gameStateRef (jump now e) in
  (phase s = Some Running ->
   s' = set_velocity (- JUMP_STRENGTH) s
   /\ bird_velocity (bird s') = - JUMP_STRENGTH
   /\ phase s' = Some Running)
  /\ (phase s = Some NotStarted ->
      s' = set_gameStarted true s
      /\ phase s' = Some Running
      /\ bird_velocity (bird s') = bird_velocity (bird s))
  /\ (phase s = Some Over ->
      s' = s
      /\ handleCanvasClick now e = e
      /\ handleTouchStart now e = e).
Proof.
  intros Hacc s s'. unfold s', s. repeat split.
  - now rewrite (jump_running _ _ Hacc H).
  - now rewrite (jump_running _ _ Hacc H).
  - rewrite (jump_running _ _ Hacc H). exact H.
  - now rewrite (jump_notStarted _ _ Hacc H).
  - rewrite (jump_notStarted _ _ Hacc H). unfold phase in *. cbn.
    destruct (gameStarted (gameStateRef e)), (gameOver (gameStateRef e));
      try discriminate; reflexivity.
  - now rewrite (jump_notStarted _ _ Hacc H).
  - now rewrite (jump_over _ _ Hacc H).
  - unfold handleCanvasClick, phase in *.
    destruct (gameStarted (gameStateRef e)), (gameOver (gameStateRef e));
      try discriminate; reflexivity.
  - unfold handleTouchStart, phase in *.
    destruct (gameStarted (gameStateRef e)), (gameOver (gameStateRef e));
      try discriminate; reflexivity.
Qed.

Lemma impulse_by_phase_witness :
  bird_velocity (bird (gameStateRef (jump 1000 (runningEnv 0 2))))
  = - JUMP_STRENGTH
  /\ phase (gameStateRef (jump 1000 initialEnv)) = Some Running
  /\ gameStateRef (jump 9000 (gameOverEnv 7)) = gameStateRef (gameOverEnv 7).
Proof.
  split; [|split].
  - apply (impulse_by_phase 1000 (runningEnv 0 2)).
    + vm_compute. discriminate.
    + reflexivity.
  - apply (impulse_by_phase 1000 initialEnv).
    + vm_compute. discriminate.
    + reflexivity.
  - apply (impulse_by_phase 9000 (gameOverEnv 7)).
    + vm_compute. discriminate.
    + reflexivity.
Defined.

(** ** Restart *)

Section Restart.

Lemma handle_detached (ev : Event) (e : Env) :
  ~ isRestart ev -> detached (handle ev e) = detached e.
Proof.
  assert (Hj : forall now, detached (jump now e) = detached e).
  { intro now. unfold jump. destruct (_ <? _)%Z; [reflexivity|].
    destruct (negb _ && _); [reflexivity|]. now destruct (negb _). }
  destruct ev; simpl; intro H.
  - unfold gameLoop, frameWith. destruct (negb _); [reflexivity|].
    destruct (negb _); [|reflexivity]. now destruct (update _ _ _ _).
  - unfold handleKeyPress. destruct (String.eqb _ _); [|reflexivity].
    destruct (negb _); [reflexivity|]. destruct (negb _); [apply Hj|reflexivity].
  - unfold handleCanvasClick. destruct (gameOver _); [reflexivity|apply Hj].
  - unfold handleTouchStart. destruct (gameOver _); [reflexivity|apply Hj].
  - now elim H.
Qed.

(** Whatever happens later, a detached session object stays as it was
    when the ref was taken off it. *)
Lemma run_detached (evs : list Event) (e : Env) :
  exists newer, detached (run evs e) = newer ++ detached e.
Proof.
  revert e. induction evs as [|ev evs IH]; intro e.
  - now exists [].
  - destruct (IH (handle ev e)) as [newer Hn]. unfold run in *. simpl.
    rewrite Hn. destruct ev;
      try (exists newer; rewrite handle_detached; [reflexivity|now simpl]).
    exists (newer ++ [gameStateRef e]). simpl. now rewrite <- app_assoc.
Qed.

End Restart.

(** C8.  [restartGame] points [gameStateRef] at a newly built session
    that owes nothing to the old one: score 0, no pipes, phase Running,
    frame counter 0, bird at height 200 with velocity 0.  The old session
    object is not written: it is left behind exactly as it was, and no
    later event reaches it. *)
Theorem restart_fresh_session (e : Env) :
  let e' := restartGame e in
  let s' := gameStateRef e' in
  s' = mkGameState (mkBird 200 0 0) [] 0 false true 0
  /\ score s' = 0%Z /\ pipes s' = [] /\ phase s' = Some Running
  /\ frameCount s' = 0%Z
  /\ bird_y (bird s') = 200 /\ bird_velocity (bird s') = 0
  /\ lastFrameTimeRef e' = 0
  /\ isGameOver (ui e') = false /\ finalScore (ui e') = 0%Z
  /\ detached e' = gameStateRef e :: detached e
  /\ (forall evs, exists newer,
        detached (run evs e') = newer ++ gameStateRef e :: detached e).
Proof.
  intros e' s'. repeat split. intro evs. apply (run_detached evs e').
Qed.

(** ** Invariants *)

Section Invariants.

Lemma survivors_In (dt : Q) (ps : list Pipe) (q : Pipe) :
  In q (survivors dt ps) <->
  exists p, In p ps /\ q = movePipe dt p /\ offScreen q = false.
Proof.
  unfold survivors. rewrite filter_In, in_map_iff, negb_true_iff.
  split.
  - intros [[p [Hq Hp]] Hoff]. exists p. auto.
  - intros [p [Hp [Hq Hoff]]]. split; [exists p|]; auto.
Qed.

Lemma survivors_cons (dt : Q) (p : Pipe) (ps : list Pipe) :
  survivors dt (p :: ps)
  = if offScreen (movePipe dt p) then survivors dt ps
    else movePipe dt p :: survivors dt ps.
Proof.
  unfold survivors. simpl. now destruct (offScreen (movePipe dt p)).
Qed.

Lemma survivors_ordered (dt : Q) (ps : list Pipe) :
  ordered ps -> ordered (survivors dt ps).
Proof.
  unfold ordered. induction ps as [|p rest IH]; intro H.
  - constructor.
  - simpl in H. apply StronglySorted_inv in H. destruct H as [Hs Hall].
    rewrite survivors_cons. destruct (offScreen (movePipe dt p)); [auto|].
    simpl. constructor; [auto|].
    apply Forall_forall. intros x Hx. apply in_map_iff in Hx.
    destruct Hx as [q [<- Hq]]. apply survivors_In in Hq.
    destruct Hq as [p0 [Hp0 [-> _]]]. simpl.
    rewrite Forall_forall in Hall.
    assert (Hle : pipe_x p <= pipe_x p0).
    { apply Hall. apply in_map_iff. now exists p0. }
    lra.
Qed.

Lemma survivors_onCanvas (dt : Q) (ps : list Pipe) :
  0 <= dt -> onCanvas ps -> onCanvas (survivors dt ps).
Proof.
  unfold onCanvas. intros Hdt H. rewrite Forall_forall in *.
  intros q Hq. apply survivors_In in Hq. destruct Hq as [p [Hp [-> _]]].
  specialize (H p Hp). simpl. unfold PIPE_SPEED. lra.
Qed.

Lemma ordered_snoc (ps : list Pipe) (p : Pipe) :
  ordered ps -> Forall (fun q => pipe_x q <= pipe_x p) ps ->
  ordered (ps ++ [p]).
Proof.
  unfold ordered. induction ps as [|q rest IH]; intros Ho Hle; simpl.
  - repeat constructor.
  - simpl in Ho. apply StronglySorted_inv in Ho. destruct Ho as [Hs Hall].
    inversion Hle as [|? ? Hq Hrest]; subst.
    constructor; [auto|].
    rewrite map_app. apply Forall_app. split; [exact Hall|].
    repeat constructor. exact Hq.
Qed.

Lemma spawnPipe_ordered (rnd : Q) (ps : list Pipe) :
  ordered ps -> onCanvas ps ->
  ordered (spawnPipe rnd ps) /\ onCanvas (spawnPipe rnd ps).
Proof.
  intros Ho Hc. unfold spawnPipe. destruct (_ || _); [|auto].
  split.
  - apply ordered_snoc; assumption.
  - apply Forall_app. split; [exact Hc|].
    repeat constructor. simpl. apply Qle_refl.
Qed.

(** On an ordered array a [break] skips only pipes that are still to
    the right of the anchor, so every pipe is marked afterwards
    whether the loop ran to its end or not. *)
Lemma checkPipes_marks_ordered (y : Q) (ps : list Pipe) (sc : Z) (u : Ui) :
  ordered ps ->
  Forall marked (fst (fst (fst (checkPipes y ps sc u)))).
Proof.
  unfold ordered. revert sc u.
  induction ps as [|p rest IH]; intros sc u Ho; simpl.
  - constructor.
  - simpl in Ho. apply StronglySorted_inv in Ho. destruct Ho as [Hs Hall].
    assert (Hp : marked (fst (fst (scorePipe p sc u)))).
    { unfold marked, scorePipe.
      destruct (pipe_scored p) eqn:Es; simpl.
      - intros _. exact Es.
      - destruct (Qltb (pipe_x p + PIPE_WIDTH) 50) eqn:El; simpl.
        + reflexivity.
        + apply Qltb_false in El. intro H. exfalso.
          exact (Qlt_not_le _ _ H El). }
    destruct (scorePipe_geometry p sc u) as [Hx _].
    assert (Hbreak : forall r : Rect,
               rect_x r = pipe_x p -> rect_width r = PIPE_WIDTH ->
               intersects (birdRect y) r = true -> Forall marked rest).
    { intros r Hrx Hrw Hi. apply intersects_true in Hi.
      destruct Hi as [[Hi _] _]. simpl in Hi. rewrite Hrx, Hrw in Hi.
      apply Forall_forall. intros q Hq Hpass.
      rewrite Forall_forall in Hall.
      assert (Hle : pipe_x p <= pipe_x q).
      { apply Hall. apply in_map_iff. now exists q. }
      unfold BIRD_X in Hi. lra. }
    destruct (scorePipe p sc u) as [[p1 sc1] u1]. simpl in Hp, Hx.
    destruct (intersects _ (topPipeRect p1)) eqn:Et; simpl.
    { constructor; [exact Hp|]. now apply (Hbreak (topPipeRect p1)). }
    destruct (intersects _ (bottomPipeRect p1)) eqn:Eb; simpl.
    { constructor; [exact Hp|]. now apply (Hbreak (bottomPipeRect p1)). }
    specialize (IH sc1 u1 Hs).
    destruct (checkPipes y rest sc1 u1) as [[[rest' sc'] over] u'].
    simpl in *. constructor; assumption.
Qed.

Lemma update_Inv (dt rnd : Q) (s : GameState) (u : Ui) :
  0 <= dt -> ordered (pipes s) -> onCanvas (pipes s) ->
  let s' := fst (update dt rnd s u) in
  ordered (pipes s') /\ onCanvas (pipes s') /\ Forall marked (pipes s').
Proof.
  intros Hdt Ho Hc s'. unfold s'. rewrite update_pipes.
  destruct (spawnPipe_ordered rnd (survivors dt (pipes s))
              (survivors_ordered dt _ Ho) (survivors_onCanvas dt _ Hdt Hc))
    as [Ho' Hc'].
  destruct (checkPipes_geometry (nextY dt s)
              (spawnPipe rnd (survivors dt (pipes s))) (score s) u)
    as [Hx _].
  split; [|split].
  - unfold ordered. rewrite Hx. exact Ho'.
  - unfold onCanvas in *. rewrite Forall_forall in *. intros q Hq.
    assert (Hin : In (pipe_x q)
                    (map pipe_x (spawnPipe rnd (survivors dt (pipes s))))).
    { rewrite <- Hx. now apply in_map. }
    apply in_map_iff in Hin. destruct Hin as [q0 [Hq0 Hin]].
    rewrite <- Hq0. now apply Hc'.
  - now apply checkPipes_marks_ordered.
Qed.

End Invariants.

Section Reachability.

Lemma Inv_initial : Inv initialEnv.
Proof.
  constructor; simpl; try constructor; auto.
Qed.

Lemma Inv_same_pipes (e e' : Env) :
  Inv e ->
  pipes (gameStateRef e') = pipes (gameStateRef e) ->
  gameStarted (gameStateRef e') = true ->
  Inv e'.
Proof.
  intros [Hi Ho Hc Hm] Hp Hs. constructor; rewrite ?Hp; auto.
  rewrite Hs. discriminate.
Qed.

Lemma Inv_jump (now : Z) (e : Env) : Inv e -> Inv (jump now e).
Proof.
  intro H. unfold jump. destruct (_ <? _)%Z; [exact H|].
  destruct (gameStarted (gameStateRef e)) eqn:Es,
           (gameOver (gameStateRef e)) eqn:Eo; simpl;
    apply (Inv_same_pipes e); auto.
Qed.

Lemma Inv_frame (currentTime rnd : Q) (e : Env) :
  lastFrameTimeRef e <= currentTime -> Inv e ->
  Inv (gameLoop currentTime rnd e).
Proof.
  intros Ht H. unfold gameLoop, frameWith.
  destruct (gameStarted (gameStateRef e)) eqn:Es; simpl.
  - destruct (gameOver (gameStateRef e)) eqn:Eo; simpl.
    + apply (Inv_same_pipes e); auto.
    + destruct H as [_ Ho Hc _].
      pose proof (update_Inv _ rnd _ (set_pendingSounds [] (ui e))
                    (deltaTime_nonneg _ _ Ht) Ho Hc) as [Ho' [Hc' Hm']].
      pose proof (update_gameStarted
                    (deltaTime currentTime (lastFrameTimeRef e)) rnd
                    (gameStateRef e) (set_pendingSounds [] (ui e))) as Hs'.
      destruct (update _ _ _ _) as [s' u']. simpl in *.
      constructor; simpl; auto. rewrite Hs', Es. discriminate.
  - destruct H as [Hi Ho Hc Hm]. constructor; simpl; auto.
Qed.

Lemma Inv_handle (ev : Event) (e : Env) :
  admissible ev e -> Inv e -> Inv (handle ev e).
Proof.
  destruct ev; simpl; intros Ha H.
  - now apply Inv_frame.
  - unfold handleKeyPress. destruct (String.eqb _ _); [|exact H].
    destruct (gameStarted (gameStateRef e)) eqn:Es; simpl.
    + destruct (negb _); [now apply Inv_jump|exact H].
    + apply (Inv_same_pipes e); auto.
  - unfold handleCanvasClick. destruct (gameOver _); [exact H|].
    now apply Inv_jump.
  - unfold handleTouchStart. destruct (gameOver _); [exact H|].
    now apply Inv_jump.
  - constructor; simpl.
    + discriminate.
    + constructor.
    + constructor.
    + constructor.
Qed.

Theorem reachable_Inv (e : Env) : reachable e -> Inv e.
Proof.
  induction 1 as [|e ev _ IH Ha].
  - exact Inv_initial.
  - now apply Inv_handle.
Qed.

(** [gameOver] is only ever set on a started session. *)
Lemma reachable_over_started (e : Env) :
  reachable e ->
  gameOver (gameStateRef e) = true -> gameStarted (gameStateRef e) = true.
Proof.
  intros Hr Ho. apply reachable_Inv in Hr.
  destruct (gameStarted (gameStateRef e)) eqn:Es; [reflexivity|].
  destruct (inv_idle e Hr Es) as [_ [Hgo _]]. congruence.
Qed.

Lemma reachable_run (evs : list Event) (e : Env) :
  reachable e ->
  (forall pre ev post, evs = pre ++ ev :: post -> admissible ev (run pre e)) ->
  reachable (run evs e).
Proof.
  revert e. induction evs as [|ev evs IH]; intros e Hr Ha.
  - exact Hr.
  - unfold run. simpl. apply IH.
    + apply reachable_step; [exact Hr|]. exact (Ha [] ev evs eq_refl).
    + intros pre ev' post ->.
      exact (Ha (ev :: pre) ev' post eq_refl).
Qed.

End Reachability.

(** ** Starting the game *)

Section Start.

Lemma space_starts (now : Z) (e : Env) :
  phase (gameStateRef e) = Some NotStarted ->
  handleKeyPress "Space" now e
  = mkEnv (set_gameStarted true (gameStateRef e)) (detached e) 0
          (lastJumpTimeRef e) (setIsGameStarted true (ui e)).
Proof.
  unfold phase, handleKeyPress. simpl String.eqb. cbv iota zeta.
  destruct (gameStarted (gameStateRef e)), (gameOver (gameStateRef e));
    try discriminate; reflexivity.
Qed.

Lemma tap_is_jump (now : Z) (e : Env) :
  gameOver (gameStateRef e) = false ->
  handleCanvasClick now e = jump now e
  /\ handleTouchStart now e = jump now e.
Proof.
  intro H. unfold handleCanvasClick, handleTouchStart. now rewrite H.
Qed.

Lemma phase_started (s : GameState) :
  phase s = Some NotStarted ->
  phase (set_gameStarted true s) = Some Running.
Proof.
  unfold phase. simpl.
  destruct (gameStarted s), (gameOver s); try discriminate; reflexivity.
Qed.

Lemma notStarted_flags (s : GameState) :
  phase s = Some NotStarted -> gameStarted s = false /\ gameOver s = false.
Proof.
  unfold phase.
  destruct (gameStarted s), (gameOver s); try discriminate; auto.
Qed.

End Start.

(** C10.  In phase NotStarted the Space key starts the game whatever the
    cooldown clock says and leaves that clock as it is, whereas a tap
    goes through [jump], which tests the cooldown first: a tap inside
    the cooldown does not start the game, and an accepted tap stamps
    the clock.  In a run of the component, a jump requested after a
    Space start is therefore accepted at any wall-clock time, while a
    jump requested less than [JUMP_COOLDOWN] ms after a tap start is
    dropped. *)
Theorem space_start_bypasses_cooldown (e : Env) (now later : Z) :
  reachable e ->
  phase (gameStateRef e) = Some NotStarted ->
  (JUMP_COOLDOWN <= now)%Z ->
  (JUMP_COOLDOWN <= later)%Z ->
  let eSpace := handleKeyPress "Space" now e in
  let eTap := handleCanvasClick now e in
  (forall t e0, phase (gameStateRef e0) = Some NotStarted ->
      phase (gameStateRef (handleKeyPress "Space" t e0)) = Some Running
      /\ lastJumpTimeRef (handleKeyPress "Space" t e0) = lastJumpTimeRef e0)
  /\ (forall t e0, phase (gameStateRef e0) = Some NotStarted ->
      (t - lastJumpTimeRef e0 < JUMP_COOLDOWN)%Z ->
      handleCanvasClick t e0 = e0 /\ handleTouchStart t e0 = e0)
  /\ phase (gameStateRef eTap) = Some Running
  /\ lastJumpTimeRef eTap = now
  /\ handleTouchStart now e = eTap
  /\ lastJumpTimeRef (jump later eSpace) = later
  /\ bird_velocity (bird (gameStateRef (jump later eSpace))) = - JUMP_STRENGTH
  /\ ((now <= later < now + JUMP_COOLDOWN)%Z -> jump later eTap = eTap).
Proof.
  intros Hr Hp Hnow Hlater eSpace eTap.
  destruct (notStarted_flags _ Hp) as [Hs Ho].
  destruct (inv_idle e (reachable_Inv e Hr) Hs) as [Hlast _].
  assert (HaccTap : (JUMP_COOLDOWN <= now - lastJumpTimeRef e)%Z)
    by (rewrite Hlast; lia).
  assert (HeTap : eTap = jump now e) by (apply tap_is_jump; exact Ho).
  assert (HaccSpace : (JUMP_COOLDOWN <= later - lastJumpTimeRef eSpace)%Z).
  { unfold eSpace. rewrite (space_starts _ _ Hp). simpl. rewrite Hlast. lia. }
  assert (HrunSpace : phase (gameStateRef eSpace) = Some Running).
  { unfold eSpace. rewrite (space_starts _ _ Hp). simpl.
    now apply phase_started. }
  split.
  { intros t e0 H0. rewrite (space_starts _ _ H0). simpl.
    split; [now apply phase_started | reflexivity]. }
  split.
  { intros t e0 H0 Hcool. destruct (notStarted_flags _ H0) as [_ Ho0].
    destruct (tap_is_jump t e0 Ho0) as [-> ->].
    split; now apply jump_rejected. }
  split.
  { rewrite HeTap, (jump_notStarted _ _ HaccTap Hp). simpl.
    now apply phase_started. }
  split.
  { rewrite HeTap. now apply jump_accepted_stamp. }
  split.
  { rewrite HeTap. now apply tap_is_jump. }
  split.
  { now apply jump_accepted_stamp. }
  split.
  { now rewrite (jump_running _ _ HaccSpace HrunSpace). }
  intro Hgap. apply jump_rejected.
  rewrite HeTap, (jump_accepted_stamp _ _ HaccTap). lia.
Qed.

Lemma space_start_bypasses_cooldown_witness :
  bird_velocity
    (bird (gameStateRef (jump 1000 (handleKeyPress "Space" 1000 initialEnv))))
  = - JUMP_STRENGTH
  /\ jump 1100 (handleCanvasClick 1000 initialEnv)
     = handleCanvasClick 1000 initialEnv.
Proof.
  destruct (space_start_bypasses_cooldown initialEnv 1000 1000)
    as (_ & _ & _ & _ & _ & _ & Hv & _);
    [exact reachable_init | reflexivity
     | vm_compute; discriminate | vm_compute; discriminate |].
  destruct (space_start_bypasses_cooldown initialEnv 1000 1100)
    as (_ & _ & _ & _ & _ & _ & _ & Hd);
    [exact reachable_init | reflexivity
     | vm_compute; discriminate | vm_compute; discriminate |].
  split; [exact Hv|]. apply Hd. vm_compute. split; [discriminate|reflexivity].
Defined.

(** C9.  In a run of the component, a pipe that a frame retires moved
    by at most [PIPE_SPEED * MAX_DELTA_TIME] in that frame, so its
    trailing edge was already left of the anchor before the frame, and
    it had been scored by then: retirement drops no unscored pass. *)
Theorem retired_pipes_already_scored
        (e : Env) (currentTime rnd : Q) (p : Pipe) :
  reachable e ->
  admissible (Frame currentTime rnd) e ->
  let dt := deltaTime currentTime (lastFrameTimeRef e) in
  In p (pipes (gameStateRef e)) ->
  offScreen (movePipe dt p) = true ->
  (0 <= dt /\ dt <= 1)
  /\ pipe_x p - pipe_x (movePipe dt p) <= PIPE_SPEED * MAX_DELTA_TIME
  /\ ~ In (movePipe dt p) (spawnPipe rnd (survivors dt (pipes (gameStateRef e))))
  /\ pipe_x p + PIPE_WIDTH < 50
  /\ pipe_scored p = true.
Proof.
  intros Hr [Ht _] dt Hin Hoff.
  pose proof (deltaTime_nonneg _ _ Ht) as H0. fold dt in H0.
  pose proof (deltaTime_le_1 currentTime (lastFrameTimeRef e)) as H1.
  fold dt in H1.
  assert (Hx : pipe_x p + PIPE_WIDTH < 50).
  { unfold offScreen in Hoff. apply Qle_bool_iff in Hoff. simpl in Hoff.
    unfold PIPE_SPEED, PIPE_WIDTH in *. lra. }
  split; [auto|]. split; [simpl; unfold PIPE_SPEED, MAX_DELTA_TIME; lra|].
  split.
  - unfold spawnPipe. intro Hc.
    assert (Hs : In (movePipe dt p) (survivors dt (pipes (gameStateRef e)))
                 \/ movePipe dt p = newPipe rnd).
    { destruct (_ || _); [|now left].
      apply in_app_or in Hc. destruct Hc as [Hc|[Hc|[]]]; auto. }
    destruct Hs as [Hs|Hs].
    + apply survivors_In in Hs. destruct Hs as [_ [_ [_ Hs]]]. congruence.
    + rewrite Hs in Hoff. vm_compute in Hoff. discriminate.
  - split; [exact Hx|].
    pose proof (inv_marked e (reachable_Inv e Hr)) as Hm.
    rewrite Forall_forall in Hm. exact (Hm p Hin Hx).
Qed.

Section CheckedRuns.

Lemma admissibleb_sound (ev : Event) (e : Env) :
  admissibleb ev e = true -> admissible ev e.
Proof.
  destruct ev; simpl; auto.
  rewrite !andb_true_iff, !Qle_bool_iff, Qltb_true. tauto.
Qed.

Lemma runChecked_run (evs : list Event) (e e' : Env) :
  runChecked evs e = Some e' -> e' = run evs e.
Proof.
  revert e. induction evs as [|ev evs IH]; intros e H; simpl in H.
  - now injection H as <-.
  - destruct (admissibleb ev e); [|discriminate]. now apply IH.
Qed.

Lemma runChecked_reachable (evs : list Event) (e e' : Env) :
  reachable e -> runChecked evs e = Some e' -> reachable e'.
Proof.
  revert e. induction evs as [|ev evs IH]; intros e Hr H; simpl in H.
  - now injection H as <-.
  - destruct (admissibleb ev e) eqn:Ha; [|discriminate].
    apply (IH (handle ev e)); [|exact H].
    apply reachable_step; [exact Hr|]. now apply admissibleb_sound.
Qed.

Lemma retiresFirstPipe_sound (evs : list Event) (currentTime : Q) :
  retiresFirstPipe evs currentTime = true ->
  reachable (run evs initialEnv)
  /\ lastFrameTimeRef (run evs initialEnv) <= currentTime
  /\ exists p,
       In p (pipes (gameStateRef (run evs initialEnv)))
       /\ offScreen
            (movePipe
               (deltaTime currentTime (lastFrameTimeRef (run evs initialEnv)))
               p) = true.
Proof.
  unfold retiresFirstPipe. intro H.
  destruct (runChecked evs initialEnv) as [e|] eqn:E; [|discriminate H].
  pose proof (runChecked_reachable _ _ _ reachable_init E) as Hr.
  apply runChecked_run in E. subst e.
  apply andb_true_iff in H. destruct H as [Ht Hoff].
  apply Qle_bool_iff in Ht.
  split; [exact Hr|]. split; [exact Ht|].
  destruct (pipes (gameStateRef (run evs initialEnv))) as [|p rest];
    [discriminate Hoff|].
  exists p. split; [now left | exact Hoff].
Qed.

End CheckedRuns.

Lemma retired_pipes_already_scored_witness :
  exists p, In p (pipes (gameStateRef (run flight initialEnv)))
            /\ offScreen
                 (movePipe
                    (deltaTime 2907 (lastFrameTimeRef (run flight initialEnv)))
                    p) = true
            /\ pipe_scored p = true.
Proof.
  assert (H : retiresFirstPipe flight 2907 = true)
    by (vm_compute; reflexivity).
  destruct (retiresFirstPipe_sound flight 2907 H) as (Hr & Ht & p & Hin & Hoff).
  exists p. split; [exact Hin|]. split; [exact Hoff|].
  apply (retired_pipes_already_scored (run flight initialEnv) 2907 (1 # 8)).
  - exact Hr.
  - split; [exact Ht|]. split; [unfold Qle | unfold Qlt]; simpl; lia.
  - exact Hin.
  - exact Hoff.
Defined.


(** C2.  With timestamps that do not go back, the step multiplier is the
    elapsed time in units of [1000 / TARGET_FPS] ms, cut off at 1, and so
    lies between 0 and 1.  A stored timestamp of 0 counts as "none": the
    elapsed time is then 0 and so is the multiplier.  A frame that comes
    10 seconds after the previous one runs exactly as a frame with
    multiplier 1. *)
Theorem step_multiplier_clamped (currentTime last : Q) :
  last <= currentTime ->
  let dt := deltaTime currentTime last in
  (last == 0 -> elapsed currentTime last == 0)
  /\ (~ last == 0 -> elapsed currentTime last = currentTime - last)
  /\ (elapsed currentTime last <= 1000 / 60 ->
      dt == elapsed currentTime last / (1000 / 60))
  /\ (1000 / 60 <= elapsed currentTime last -> dt == 1)
  /\ (0 <= dt /\ dt <= 1)
  /\ deltaTime currentTime 0 == 0
  /\ (~ last == 0 -> currentTime == last + 10000 ->
      dt = 1
      /\ forall rnd e,
           lastFrameTimeRef e = last ->
           gameLoop currentTime rnd e = frameWith 1 currentTime rnd e).
Proof.
  intros Hle dt.
  assert (E60 : 1000 / 60 == 50 # 3) by reflexivity.
  split.
  { intro H0. unfold elapsed, initLastFrameTime.
    apply Qeq_bool_iff in H0. rewrite H0. ring. }
  split; [apply elapsed_later|].
  split.
  { intro H. unfold dt. rewrite deltaTime_elapsed, Math_min_small.
    - reflexivity.
    - rewrite frames_of_ms. unfold MAX_DELTA_TIME. lra. }
  split.
  { intro H. unfold dt. rewrite deltaTime_elapsed. apply Math_min_large.
    rewrite frames_of_ms. unfold MAX_DELTA_TIME. lra. }
  split.
  { split; [now apply deltaTime_nonneg | apply deltaTime_le_1]. }
  split; [apply deltaTime_first|].
  intros H0 Hpause.
  assert (Hdt : dt = 1).
  { unfold dt. apply deltaTime_pause; [exact H0|]. lra. }
  split; [exact Hdt|].
  intros rnd e He. unfold gameLoop. rewrite He. fold dt. now rewrite Hdt.
Qed.

Lemma step_multiplier_clamped_witness :
  deltaTime 10016 16 = 1
  /\ gameLoop 10016 0 (runningEnv 0 2) = frameWith 1 10016 0 (runningEnv 0 2).
Proof.
  destruct (step_multiplier_clamped 10016 16) as (_ & _ & _ & _ & _ & _ & H).
  - unfold Qle. simpl. lia.
  - destruct H as [Hdt Hframe].
    + intro H0. discriminate H0.
    + reflexivity.
    + split; [exact Hdt|]. apply Hframe. reflexivity.
Defined.

(** ** Order of retirement and checks *)

Section RetireThenCheck.

Variable dt : Q.

Lemma survivors_of_kept (ps : list Pipe) :
  survivors dt (filter (fun p => negb (offScreen (movePipe dt p))) ps)
  = survivors dt ps.
Proof.
  induction ps as [|p rest IH]; [reflexivity|].
  simpl filter. rewrite survivors_cons.
  destruct (offScreen (movePipe dt p)) eqn:E; simpl.
  - exact IH.
  - rewrite survivors_cons, E, IH. reflexivity.
Qed.

Lemma retired_not_checked (rnd : Q) (ps : list Pipe) (p : Pipe) :
  offScreen (movePipe dt p) = true ->
  ~ In (movePipe dt p) (spawnPipe rnd (survivors dt ps)).
Proof.
  intros Hoff Hc. unfold spawnPipe in Hc.
  assert (Hs : In (movePipe dt p) (survivors dt ps)
               \/ movePipe dt p = newPipe rnd).
  { destruct (_ || _); [|now left].
    apply in_app_or in Hc. destruct Hc as [Hc|[Hc|[]]]; auto. }
  destruct Hs as [Hs|Hs].
  - apply survivors_In in Hs. destruct Hs as [_ [_ [_ Hs]]]. congruence.
  - rewrite Hs in Hoff. vm_compute in Hoff. discriminate Hoff.
Qed.

End RetireThenCheck.

(** C1 (as amended).  A running frame retires before it checks: the
    splice loop leaves the pipes that are still on screen, in their
    order; the scoring and collision loop then walks over these and the
    newly spawned pipe only, and moves none of them.  A pipe whose
    trailing edge reaches 0 in the frame is not among them, and the
    outcome of the frame is the same as if that pipe had not been there
    at its start. *)
Theorem retirement_before_checks (dt rnd : Q) (s : GameState) (u : Ui) :
  (let '(moved, rm) := movePipes dt 0 (pipes s) in removePipes rm moved)
  = filter (fun p => negb (offScreen p)) (map (movePipe dt) (pipes s))
  /\ pipes (fst (update dt rnd s u))
     = fst (fst (fst (checkPipes (nextY dt s)
                        (spawnPipe rnd (survivors dt (pipes s))) (score s) u)))
  /\ map pipe_x (pipes (fst (update dt rnd s u)))
     = map pipe_x (spawnPipe rnd (survivors dt (pipes s)))
  /\ (forall p, In p (pipes s) -> offScreen (movePipe dt p) = true ->
        ~ In (movePipe dt p) (spawnPipe rnd (survivors dt (pipes s)))
        /\ ~ In (pipe_x (movePipe dt p))
                (map pipe_x (pipes (fst (update dt rnd s u)))))
  /\ update dt rnd s u
     = update dt rnd
         (set_pipes (filter (fun p => negb (offScreen (movePipe dt p))) (pipes s))
                    s) u.
Proof.
  assert (Hx : map pipe_x (pipes (fst (update dt rnd s u)))
               = map pipe_x (spawnPipe rnd (survivors dt (pipes s)))).
  { rewrite update_pipes. apply checkPipes_geometry. }
  split; [apply retire_filter|].
  split; [apply update_pipes|].
  split; [exact Hx|].
  split.
  - intros p Hin Hoff. split; [now apply retired_not_checked|].
    rewrite Hx. intro Hc. apply in_map_iff in Hc.
    destruct Hc as [q [Hq Hc]].
    assert (Hq' : offScreen q = true).
    { unfold offScreen in *. now rewrite Hq. }
    unfold spawnPipe in Hc.
    assert (Hs : In q (survivors dt (pipes s)) \/ q = newPipe rnd).
    { destruct (_ || _); [|now left].
      apply in_app_or in Hc. destruct Hc as [Hc|[Hc|[]]]; auto. }
    destruct Hs as [Hs|Hs].
    + apply survivors_In in Hs. destruct Hs as [_ [_ [_ Hs]]]. congruence.
    + rewrite Hs in Hq'. vm_compute in Hq'. discriminate Hq'.
  - rewrite !update_spec. simpl pipes. rewrite survivors_of_kept.
    reflexivity.
Qed.

Lemma retirement_before_checks_witness :
  ~ In (-53) (map pipe_x (pipes (fst (update 1 0 scoredAtEdge noUi)))).
Proof.
  destruct (retirement_before_checks 1 0 scoredAtEdge noUi)
    as (_ & _ & _ & H & _).
  apply (H (mkPipe (-51) 100 true)).
  - left. reflexivity.
  - reflexivity.
Defined.

(** C1 (as stated) fails: a pipe that is unscored, with its trailing
    edge left of the anchor, and that reaches the left world bound in
    this frame would be counted by the scoring check; the frame removes
    it first, and the score stays as it was. *)
Lemma retired_pipe_is_not_checked :
  let p := mkPipe (-51) 100 false in
  In p (pipes unscoredAtEdge)
  /\ offScreen (movePipe 1 p) = true
  /\ snd (fst (scorePipe (movePipe 1 p) (score unscoredAtEdge) noUi))
     = (score unscoredAtEdge + 1)%Z
  /\ score (fst (update 1 0 unscoredAtEdge noUi)) = score unscoredAtEdge
  /\ pipes (fst (update 1 0 unscoredAtEdge noUi)) = [mkPipe 98 120 false].
Proof. vm_compute. repeat split. now left. Qed.

(** ** Scoring *)

Section Scoring.

Lemma passing_true (p : Pipe) :
  passing p = true <-> pipe_scored p = false /\ pipe_x p + PIPE_WIDTH < 50.
Proof.
  unfold passing. rewrite andb_true_iff, negb_true_iff, Qltb_true. tauto.
Qed.

Lemma scorePipe_passing (p : Pipe) (sc : Z) (u : Ui) :
  passing p = true ->
  scorePipe p sc u
  = (mkPipe (pipe_x p) (pipe_topHeight p) true, (sc + 1)%Z, queueSound Point u).
Proof. intro H. unfold scorePipe. fold (passing p). now rewrite H. Qed.

Lemma scorePipe_skip (p : Pipe) (sc : Z) (u : Ui) :
  passing p = false -> scorePipe p sc u = (p, sc, u).
Proof. intro H. unfold scorePipe. fold (passing p). now rewrite H. Qed.

Lemma scorePipe_done (p : Pipe) (sc : Z) (u : Ui) :
  passing (fst (fst (scorePipe p sc u))) = false.
Proof.
  destruct (passing p) eqn:E.
  - rewrite (scorePipe_passing _ _ _ E). reflexivity.
  - rewrite (scorePipe_skip _ _ _ E). exact E.
Qed.

Lemma set_add_present (k : Sound) (l : list Sound) :
  set_add k (set_add k l) = set_add k l.
Proof.
  unfold set_add at 2. destruct (existsb (Sound_eqb k) l) eqn:E.
  - unfold set_add. now rewrite E.
  - assert (Hk : Sound_eqb k k = true) by now destruct k.
    unfold set_add. rewrite existsb_app. simpl. rewrite Hk. simpl.
    now rewrite orb_true_r, E.
Qed.

Lemma hit_twice (sc : Z) (u : Ui) : hit sc (hit sc u) = hit sc u.
Proof.
  unfold hit, queueSound, set_pendingSounds, setIsGameOver, setFinalScore.
  simpl. now rewrite set_add_present.
Qed.

(** Running the loop again over what it left changes nothing. *)
Lemma checkPipes_twice (y : Q) (ps : list Pipe) (sc : Z) (u : Ui) :
  let r := checkPipes y ps sc u in
  checkPipes y (fst (fst (fst r))) (snd (fst (fst r))) (snd r) = r.
Proof.
  revert sc u. induction ps as [|p rest IH]; intros sc u; simpl.
  - reflexivity.
  - pose proof (scorePipe_done p sc u) as Hd.
    destruct (scorePipe p sc u) as [[p1 sc1] u1]. simpl in Hd.
    destruct (intersects (birdRect y) (topPipeRect p1)) eqn:Et.
    { simpl. rewrite (scorePipe_skip _ _ _ Hd), Et, hit_twice. reflexivity. }
    destruct (intersects (birdRect y) (bottomPipeRect p1)) eqn:Eb.
    { simpl. rewrite (scorePipe_skip _ _ _ Hd), Et, Eb, hit_twice.
      reflexivity. }
    specialize (IH sc1 u1). cbv zeta in IH.
    destruct (checkPipes y rest sc1 u1) as [[[rest' sc'] over] u'].
    simpl in *. rewrite (scorePipe_skip _ _ _ Hd), Et, Eb, IH. reflexivity.
Qed.

End Scoring.

(** C6.  The scoring check marks a pipe and adds one to the score when
    the pipe is unscored and its trailing edge is left of the anchor,
    and does nothing otherwise; on its own result it does nothing, so
    two checks of an unmoved pipe add one in all, and so does the whole
    loop run twice.  In a run of the component every pipe whose trailing
    edge is left of the anchor is marked when the frame ends: the mark
    is set in the first frame in which the edge has passed. *)
Theorem scoring_idempotent (p : Pipe) (sc : Z) (u : Ui) :
  let p1 := fst (fst (scorePipe p sc u)) in
  let sc1 := snd (fst (scorePipe p sc u)) in
  let u1 := snd (scorePipe p sc u) in
  (pipe_scored p = false -> pipe_x p + PIPE_WIDTH < 50 ->
   pipe_scored p1 = true /\ sc1 = (sc + 1)%Z)
  /\ (pipe_scored p = true -> scorePipe p sc u = (p, sc, u))
  /\ (50 <= pipe_x p + PIPE_WIDTH -> scorePipe p sc u = (p, sc, u))
  /\ (pipe_x p1 = pipe_x p /\ pipe_topHeight p1 = pipe_topHeight p)
  /\ scorePipe p1 sc1 u1 = (p1, sc1, u1)
  /\ (forall y ps,
        let r := checkPipes y ps sc u in
        checkPipes y (fst (fst (fst r))) (snd (fst (fst r))) (snd r) = r)
  /\ (forall e, reachable e -> Forall marked (pipes (gameStateRef e))).
Proof.
  intros p1 sc1 u1. split.
  { intros Hs Hx. unfold p1, sc1.
    rewrite scorePipe_passing by (apply passing_true; auto). auto. }
  split.
  { intro Hs. apply scorePipe_skip. unfold passing. now rewrite Hs. }
  split.
  { intro Hx. apply scorePipe_skip. unfold passing.
    apply Qltb_false in Hx. rewrite Hx. apply andb_false_r. }
  split; [apply scorePipe_geometry|].
  split.
  { unfold p1, sc1, u1. rewrite scorePipe_skip by apply scorePipe_done.
    now destruct (scorePipe p sc u) as [[? ?] ?]. }
  split; [intros y ps; apply checkPipes_twice|].
  intros e Hr. exact (inv_marked e (reachable_Inv e Hr)).
Qed.

Lemma scoring_idempotent_witness :
  let p := mkPipe (-3) 100 false in
  snd (fst (scorePipe p 4 noUi)) = 5%Z
  /\ scorePipe (fst (fst (scorePipe p 4 noUi))) 5 (snd (scorePipe p 4 noUi))
     = scorePipe p 4 noUi.
Proof.
  intro p.
  destruct (scoring_idempotent p 4 noUi) as (H1 & _ & _ & _ & H2 & _).
  split.
  - apply H1; reflexivity.
  - exact H2.
Defined.


(** * Further properties of the game core *)

(** ** What the loop does to the React state and the score *)

Section LoopBookkeeping.

Variable y : Q.

Lemma scorePipe_ui (p : Pipe) (sc : Z) (u : Ui) :
  let u1 := snd (scorePipe p sc u) in
  isGameOver u1 = isGameOver u /\ finalScore u1 = finalScore u
  /\ isGameStarted u1 = isGameStarted u /\ hasSubmitted u1 = hasSubmitted u
  /\ leaderboard u1 = leaderboard u.
Proof. unfold scorePipe. destruct (_ && _); simpl; auto. Qed.

Lemma scorePipe_score (p : Pipe) (sc : Z) (u : Ui) :
  (sc <= snd (fst (scorePipe p sc u)) <= sc + 1)%Z.
Proof. unfold scorePipe. destruct (_ && _); simpl; lia. Qed.

(** Without a [break] the loop writes neither [isGameOver] nor
    [finalScore]. *)
Lemma checkPipes_quiet (ps : list Pipe) (sc : Z) (u : Ui) :
  snd (fst (checkPipes y ps sc u)) = false ->
  isGameOver (snd (checkPipes y ps sc u)) = isGameOver u
  /\ finalScore (snd (checkPipes y ps sc u)) = finalScore u.
Proof.
  revert sc u. induction ps as [|p rest IH]; intros sc u; simpl.
  - auto.
  - destruct (scorePipe_ui p sc u) as (Ho & Hf & _).
    destruct (scorePipe p sc u) as [[p1 sc1] u1]. simpl in Ho, Hf.
    destruct (intersects _ (topPipeRect p1)); [discriminate|].
    destruct (intersects _ (bottomPipeRect p1)); [discriminate|].
    specialize (IH sc1 u1).
    destruct (checkPipes y rest sc1 u1) as [[[rest' sc'] over] u'].
    simpl in *. intro H. destruct (IH H) as [-> ->]. auto.
Qed.

Lemma hit_others (sc : Z) (u : Ui) :
  isGameStarted (hit sc u) = isGameStarted u
  /\ hasSubmitted (hit sc u) = hasSubmitted u
  /\ leaderboard (hit sc u) = leaderboard u.
Proof. unfold hit, queueSound. simpl. auto. Qed.

Lemma checkPipes_others (ps : list Pipe) (sc : Z) (u : Ui) :
  isGameStarted (snd (checkPipes y ps sc u)) = isGameStarted u
  /\ hasSubmitted (snd (checkPipes y ps sc u)) = hasSubmitted u
  /\ leaderboard (snd (checkPipes y ps sc u)) = leaderboard u.
Proof.
  revert sc u. induction ps as [|p rest IH]; intros sc u; simpl.
  - auto.
  - destruct (scorePipe_ui p sc u) as (_ & _ & Hs & Hh & Hl).
    destruct (scorePipe p sc u) as [[p1 sc1] u1]. simpl in Hs, Hh, Hl.
    destruct (intersects _ (topPipeRect p1)).
    { cbn [snd fst]. destruct (hit_others sc1 u1) as (-> & -> & ->). auto. }
    destruct (intersects _ (bottomPipeRect p1)).
    { cbn [snd fst]. destruct (hit_others sc1 u1) as (-> & -> & ->). auto. }
    specialize (IH sc1 u1).
    destruct (checkPipes y rest sc1 u1) as [[[rest' sc'] over] u'].
    simpl in *. destruct IH as (-> & -> & ->). auto.
Qed.

(** The loop adds at most one point for each pipe that fulfils the
    scoring condition, and takes none away. *)
Lemma checkPipes_score (ps : list Pipe) (sc : Z) (u : Ui) :
  (sc <= snd (fst (fst (checkPipes y ps sc u)))
   <= sc + Z.of_nat (length (filter passing ps)))%Z.
Proof.
  revert sc u. induction ps as [|p rest IH]; intros sc u.
  - simpl. lia.
  - cbn [checkPipes filter].
    assert (Hp : (sc <= snd (fst (scorePipe p sc u))
                  <= sc + (if passing p then 1 else 0))%Z).
    { unfold scorePipe. fold (passing p). destruct (passing p); simpl; lia. }
    assert (Hl : (Z.of_nat (length (if passing p then p :: filter passing rest
                                    else filter passing rest))
                  = (if passing p then 1 else 0)
                    + Z.of_nat (length (filter passing rest)))%Z).
    { destruct (passing p); simpl length; lia. }
    rewrite Hl.
    destruct (scorePipe p sc u) as [[p1 sc1] u1]. simpl in Hp.
    destruct (intersects _ (topPipeRect p1)); [simpl; lia|].
    destruct (intersects _ (bottomPipeRect p1)); [simpl; lia|].
    specialize (IH sc1 u1).
    destruct (checkPipes y rest sc1 u1) as [[[rest' sc'] over] u'].
    simpl in *. lia.
Qed.

End LoopBookkeeping.

(** ** Well-formed worlds *)

Section WellFormed.

Lemma Forall_by_map {A B : Type} (f : A -> B) (P : B -> Prop) (l l' : list A) :
  map f l = map f l' ->
  Forall (fun a => P (f a)) l' -> Forall (fun a => P (f a)) l.
Proof.
  intros Hm H. rewrite <- Forall_map in *. now rewrite Hm.
Qed.

Lemma newPipe_gap (rnd : Q) :
  0 <= rnd -> rnd < 1 -> gapInBounds (newPipe rnd).
Proof.
  intros H0 H1. unfold gapInBounds, newPipe, CANVAS_HEIGHT, PIPE_GAP. simpl.
  split; lra.
Qed.

Lemma spawnPipe_In (rnd : Q) (ps : list Pipe) (q : Pipe) :
  In q (spawnPipe rnd ps) -> In q ps \/ q = newPipe rnd.
Proof.
  unfold spawnPipe. destruct (_ || _); [|now left].
  intro H. apply in_app_or in H. destruct H as [H|[H|[]]]; auto.
Qed.

Lemma spawned_gaps (dt rnd : Q) (ps : list Pipe) :
  0 <= rnd -> rnd < 1 -> Forall gapInBounds ps ->
  Forall gapInBounds (spawnPipe rnd (survivors dt ps)).
Proof.
  intros H0 H1 H. rewrite Forall_forall in *. intros q Hq.
  apply spawnPipe_In in Hq. destruct Hq as [Hq| ->].
  - apply survivors_In in Hq. destruct Hq as [p [Hp [-> _]]].
    exact (H p Hp).
  - now apply newPipe_gap.
Qed.

Lemma spawned_onScreen (dt rnd : Q) (ps : list Pipe) :
  0 <= dt -> Forall onScreen ps ->
  Forall onScreen (spawnPipe rnd (survivors dt ps)).
Proof.
  intros Hdt H. rewrite Forall_forall in *. intros q Hq.
  apply spawnPipe_In in Hq. destruct Hq as [Hq| ->].
  - apply survivors_In in Hq. destruct Hq as [p [Hp [-> Hoff]]].
    destruct (H p Hp) as [_ Hr]. unfold offScreen in Hoff.
    destruct (Qle_bool _ _) eqn:E in Hoff; [discriminate|].
    assert (Hl : ~ pipe_x (movePipe dt p) + PIPE_WIDTH <= 0).
    { intro L. apply Qle_bool_iff in L. congruence. }
    unfold onScreen. simpl in *. unfold PIPE_SPEED, PIPE_WIDTH in *.
    split; lra.
  - unfold onScreen, newPipe, PIPE_WIDTH, CANVAS_WIDTH. simpl. split; lra.
Qed.

Lemma survivors_spaced (dt : Q) (ps : list Pipe) :
  spaced ps -> spaced (survivors dt ps).
Proof.
  unfold spaced. induction ps as [|p rest IH]; intro H.
  - constructor.
  - simpl in H. apply StronglySorted_inv in H. destruct H as [Hs Hall].
    rewrite survivors_cons. destruct (offScreen (movePipe dt p)); [auto|].
    simpl. constructor; [auto|].
    apply Forall_forall. intros x Hx. apply in_map_iff in Hx.
    destruct Hx as [q [<- Hq]]. apply survivors_In in Hq.
    destruct Hq as [p0 [Hp0 [-> _]]]. simpl.
    rewrite Forall_forall in Hall.
    assert (Hle : pipe_x p + 200 < pipe_x p0).
    { apply Hall. apply in_map_iff. now exists p0. }
    lra.
Qed.

(** In a spaced array the last pipe is the rightmost. *)
Lemma spaced_last (ps : list Pipe) (d p : Pipe) :
  spaced ps -> In p ps -> pipe_x p <= pipe_x (last ps d).
Proof.
  unfold spaced. revert p. induction ps as [|q rest IH]; intros p Hs Hin.
  - contradiction.
  - simpl in Hs. apply StronglySorted_inv in Hs. destruct Hs as [Hs Hall].
    destruct rest as [|r rest'].
    + destruct Hin as [->|[]]. simpl. apply Qle_refl.
    + change (last (q :: r :: rest') d) with (last (r :: rest') d).
      destruct Hin as [->|Hin].
      * rewrite Forall_forall in Hall.
        assert (Hr : pipe_x p + 200 < pipe_x r).
        { apply Hall. simpl. now left. }
        assert (Hl : pipe_x r <= pipe_x (last (r :: rest') d)).
        { apply IH; [exact Hs | now left]. }
        lra.
      * now apply IH.
Qed.

Lemma spaced_snoc (ps : list Pipe) (p : Pipe) :
  spaced ps -> Forall (fun q => pipe_x q + 200 < pipe_x p) ps ->
  spaced (ps ++ [p]).
Proof.
  unfold spaced. induction ps as [|q rest IH]; intros Ho Hle; simpl.
  - repeat constructor.
  - simpl in Ho. apply StronglySorted_inv in Ho. destruct Ho as [Hs Hall].
    inversion Hle as [|? ? Hq Hrest]; subst.
    constructor; [auto|].
    rewrite map_app. apply Forall_app. split; [exact Hall|].
    repeat constructor. exact Hq.
Qed.

Lemma spawnPipe_spaced (rnd : Q) (ps : list Pipe) :
  spaced ps -> spaced (spawnPipe rnd ps).
Proof.
  intro Hs. unfold spawnPipe.
  destruct (Nat.eqb (length ps) 0) eqn:El; simpl.
  - destruct ps; [|discriminate]. simpl. repeat constructor.
  - destruct (Qltb _ _) eqn:Eq; [|exact Hs].
    apply Qltb_true in Eq. apply spaced_snoc; [exact Hs|].
    apply Forall_forall. intros q Hq.
    pose proof (spaced_last ps (newPipe rnd) q Hs Hq) as Hl.
    change (pipe_x (newPipe rnd)) with CANVAS_WIDTH.
    unfold CANVAS_WIDTH in *. lra.
Qed.

Lemma update_Wf_pipes (dt rnd : Q) (s : GameState) (u : Ui) :
  0 <= dt -> 0 <= rnd -> rnd < 1 ->
  Forall gapInBounds (pipes s) -> spaced (pipes s) ->
  Forall onScreen (pipes s) ->
  let s' := fst (update dt rnd s u) in
  Forall gapInBounds (pipes s') /\ spaced (pipes s')
  /\ Forall onScreen (pipes s').
Proof.
  intros Hdt Hr0 Hr1 Hg Hs Ho s'. unfold s'. rewrite update_pipes.
  destruct (checkPipes_geometry (nextY dt s)
              (spawnPipe rnd (survivors dt (pipes s))) (score s) u)
    as [Hx Hh].
  split; [|split].
  - apply (Forall_by_map pipe_topHeight
             (fun h => 50 <= h /\ h < CANVAS_HEIGHT - PIPE_GAP - 50) _ _ Hh).
    now apply spawned_gaps.
  - unfold spaced. rewrite Hx.
    apply spawnPipe_spaced. now apply survivors_spaced.
  - apply (Forall_by_map pipe_x
             (fun x => - PIPE_WIDTH < x /\ x <= CANVAS_WIDTH) _ _ Hx).
    now apply spawned_onScreen.
Qed.

Lemma update_Wf_bird (dt rnd : Q) (s : GameState) (u : Ui) :
  0 <= dt ->
  - JUMP_STRENGTH <= bird_velocity (bird s) ->
  (0 <= bird_frame (bird s) <= 2)%Z ->
  let s' := fst (update dt rnd s u) in
  (gameOver s' = false ->
   0 <= bird_y (bird s') /\ bird_y (bird s') <= CANVAS_HEIGHT)
  /\ - JUMP_STRENGTH <= bird_velocity (bird s')
  /\ (0 <= bird_frame (bird s') <= 2)%Z
  /\ frameCount s' = (frameCount s + 1)%Z.
Proof.
  intros Hdt Hv Hf s'. unfold s'. split; [|split; [|split]].
  - rewrite update_gameOver. destruct (update_bird dt rnd s u) as [-> _].
    intro H. apply orb_false_iff in H. destruct H as [H _].
    now apply outOfBounds_false.
  - destruct (update_bird dt rnd s u) as [_ ->].
    unfold nextVelocity, GRAVITY. lra.
  - rewrite update_spec. cbn -[checkPipes Z.rem].
    destruct (Z.rem (frameCount s + 1) 5 =? 0)%Z; [|exact Hf].
    pose proof (Z.rem_bound_pos (bird_frame (bird s) + 1) 3). lia.
  - rewrite update_spec. reflexivity.
Qed.

Lemma update_Wf_ui (dt rnd : Q) (s : GameState) (u : Ui) :
  isGameOver u = false ->
  let s' := fst (update dt rnd s u) in
  let u' := snd (update dt rnd s u) in
  isGameOver u' = gameOver s'
  /\ isGameStarted u' = isGameStarted u
  /\ finalScore u' = (if gameOver s' then score s' else finalScore u)
  /\ (score s <= score s')%Z.
Proof.
  intros Hu s' u'. unfold s', u'. rewrite update_spec. cbn -[checkPipes hit].
  set (r := checkPipes (nextY dt s)
              (spawnPipe rnd (survivors dt (pipes s))) (score s) u).
  pose proof (checkPipes_score (nextY dt s)
                (spawnPipe rnd (survivors dt (pipes s))) (score s) u) as Hsc.
  fold r in Hsc.
  destruct (checkPipes_others (nextY dt s)
              (spawnPipe rnd (survivors dt (pipes s))) (score s) u)
    as (Hst & _). fold r in Hst.
  pose proof (checkPipes_hit (nextY dt s)
                (spawnPipe rnd (survivors dt (pipes s))) (score s) u) as Hh.
  pose proof (checkPipes_quiet (nextY dt s)
                (spawnPipe rnd (survivors dt (pipes s))) (score s) u) as Hq.
  fold r in Hh, Hq.
  destruct (outOfBounds (nextY dt s)).
  - destruct (hit_isGameOver (snd (fst (fst r))) (snd r)) as [-> ->].
    destruct (hit_others (snd (fst (fst r))) (snd r)) as (-> & _).
    simpl. repeat split; auto. lia.
  - simpl. destruct (snd (fst r)) eqn:Eo.
    + destruct (Hh eq_refl) as [-> ->]. repeat split; auto. lia.
    + destruct (Hq eq_refl) as [-> ->]. repeat split; auto. lia.
Qed.

End WellFormed.

Section WellFormedRuns.

Lemma Wf_initial : Wf initialEnv.
Proof.
  constructor; simpl; try constructor; auto; try lia; try lra.
  - unfold CANVAS_HEIGHT. lra.
  - unfold JUMP_STRENGTH. lra.
Qed.

Lemma Wf_jump (now : Z) (e : Env) : Wf e -> Wf (jump now e).
Proof.
  intro H. unfold jump. destruct (_ <? _)%Z; [exact H|].
  destruct H. 
  destruct (gameStarted (gameStateRef e)) eqn:Es,
           (gameOver (gameStateRef e)) eqn:Eo; simpl;
    constructor; simpl; rewrite ?Es, ?Eo in *; auto;
    try discriminate; try apply Qle_refl.
Qed.

Lemma Wf_frame (currentTime rnd : Q) (e : Env) :
  lastFrameTimeRef e <= currentTime -> 0 <= rnd -> rnd < 1 ->
  Wf e -> Wf (gameLoop currentTime rnd e).
Proof.
  intros Ht Hr0 Hr1 H. unfold gameLoop, frameWith.
  destruct (gameStarted (gameStateRef e)) eqn:Es; simpl.
  - destruct (gameOver (gameStateRef e)) eqn:Eo; simpl.
    + destruct H. constructor; simpl; rewrite ?Es, ?Eo in *; auto.
    + pose proof (deltaTime_nonneg _ _ Ht) as Hdt.
      set (dt := deltaTime currentTime (lastFrameTimeRef e)) in *.
      set (u0 := set_pendingSounds [] (ui e)).
      destruct H.
      destruct (update_Wf_pipes dt rnd (gameStateRef e) u0 Hdt Hr0 Hr1
                  wf_gaps0 wf_spaced0 wf_onScreen0) as (Hg & Hs & Ho).
      destruct (update_Wf_bird dt rnd (gameStateRef e) u0 Hdt
                  wf_velocity0 wf_sprite0) as (Hy & Hv & Hf & Hc).
      assert (Hu0 : isGameOver u0 = false) by (simpl; congruence).
      destruct (update_Wf_ui dt rnd (gameStateRef e) u0 Hu0)
        as (Hgo & Hgs & Hfs & Hsc).
      pose proof (update_gameStarted dt rnd (gameStateRef e) u0) as Hst.
      destruct (update dt rnd (gameStateRef e) u0) as [s' u'].
      simpl in *. rewrite Eo in *.
      constructor; simpl; auto; try lia; try congruence.
      rewrite Hfs, wf_finalScore0. reflexivity.
  - destruct H. constructor; simpl; auto.
Qed.

Lemma Wf_handle (ev : Event) (e : Env) :
  admissible ev e -> Wf e -> Wf (handle ev e).
Proof.
  destruct ev; simpl; intros Ha H.
  - destruct Ha as (Ht & Hr0 & Hr1). now apply Wf_frame.
  - unfold handleKeyPress. destruct (String.eqb _ _); [|exact H].
    destruct (gameStarted (gameStateRef e)) eqn:Es; simpl.
    + destruct (negb _); [now apply Wf_jump|exact H].
    + destruct H. destruct (gameOver (gameStateRef e)) eqn:Eo;
        constructor; simpl; rewrite ?Es, ?Eo in *; auto; try discriminate.
  - unfold handleCanvasClick. destruct (gameOver _); [exact H|].
    now apply Wf_jump.
  - unfold handleTouchStart. destruct (gameOver _); [exact H|].
    now apply Wf_jump.
  - constructor; simpl; try constructor; auto; try lia; try discriminate.
Qed.

Lemma reachable_Wf (e : Env) : reachable e -> Wf e.
Proof.
  induction 1 as [|e ev _ IH Ha].
  - exact Wf_initial.
  - now apply Wf_handle.
Qed.

End WellFormedRuns.

Lemma firstFrameEnv_reachable : reachable firstFrameEnv.
Proof.
  apply (runChecked_reachable
           [KeyDown "Space" 1000; Frame 17 (1 # 8)] initialEnv).
  - exact reachable_init.
  - reflexivity.
Qed.

(** ** Pipes on screen *)

(** X1.  In every run, each pipe's gap starts between 50 and 312 below
    the top, so the segment above the gap and the segment below it both
    have a height of at least 50. *)
Theorem pipes_gap_in_bounds (e : Env) :
  reachable e ->
  Forall (fun p =>
            50 <= pipe_topHeight p /\ pipe_topHeight p < 312
            /\ 50 <= rect_height (topPipeRect p)
            /\ 50 < rect_height (bottomPipeRect p))
         (pipes (gameStateRef e)).
Proof.
  intro Hr. pose proof (wf_gaps e (reachable_Wf e Hr)) as H.
  rewrite Forall_forall in *. intros p Hp. destruct (H p Hp) as [H1 H2].
  unfold gapInBounds, topPipeRect, bottomPipeRect in *. simpl.
  unfold CANVAS_HEIGHT, PIPE_GAP in *. repeat split; lra.
Qed.

Lemma pipes_gap_in_bounds_witness :
  Forall (fun p =>
            50 <= pipe_topHeight p /\ pipe_topHeight p < 312
            /\ 50 <= rect_height (topPipeRect p)
            /\ 50 < rect_height (bottomPipeRect p))
         (pipes (gameStateRef firstFrameEnv)).
Proof. exact (pipes_gap_in_bounds firstFrameEnv firstFrameEnv_reachable). Defined.

(** X2.  In every run the pipes are more than 200 apart, leftmost
    first, each with its trailing edge right of 0 and its leading edge
    not right of 288; so there are never more than two of them. *)
Theorem pipes_spaced_at_most_two (e : Env) :
  reachable e ->
  spaced (pipes (gameStateRef e))
  /\ Forall onScreen (pipes (gameStateRef e))
  /\ (length (pipes (gameStateRef e)) <= 2)%nat.
Proof.
  intro Hr. pose proof (reachable_Wf e Hr) as [_ Hs Ho _ _ _ _ _ _ _ _ _].
  split; [exact Hs|]. split; [exact Ho|].
  destruct (pipes (gameStateRef e)) as [|a [|b [|c rest]]]; simpl; try lia.
  exfalso. unfold spaced in Hs. simpl in Hs.
  apply StronglySorted_inv in Hs. destruct Hs as [Hs Ha].
  apply StronglySorted_inv in Hs. destruct Hs as [_ Hb].
  inversion Ha as [|? ? Hab _]; subst.
  inversion Hb as [|? ? Hbc _]; subst.
  inversion Ho as [|? ? [Ha0 _] Ho']; subst.
  inversion Ho' as [|? ? _ Ho'']; subst.
  inversion Ho'' as [|? ? [_ Hc1] _]; subst.
  unfold PIPE_WIDTH, CANVAS_WIDTH in *. lra.
Qed.

Lemma pipes_spaced_at_most_two_witness :
  (length (pipes (gameStateRef firstFrameEnv)) <= 2)%nat.
Proof.
  apply (pipes_spaced_at_most_two firstFrameEnv firstFrameEnv_reachable).
Defined.

Lemma last_of_map {A B : Type} (f : A -> B) (l : list A) (d : A) :
  last (map f l) (f d) = f (last l d).
Proof.
  induction l as [|a [|b rest] IH]; try reflexivity.
  exact IH.
Qed.

(** X3.  After a running frame there is always a pipe ahead of the
    bird: the array is not empty and its last pipe is at 88 or further
    right. *)
Theorem pipe_ahead_after_frame (dt rnd : Q) (s : GameState) (u : Ui) :
  let ps := pipes (fst (update dt rnd s u)) in
  ps <> [] /\ 88 <= pipe_x (last ps (newPipe rnd)).
Proof.
  intro ps.
  assert (Hx : map pipe_x ps
               = map pipe_x (spawnPipe rnd (survivors dt (pipes s)))).
  { unfold ps. rewrite update_pipes. apply checkPipes_geometry. }
  assert (Hsp : spawnPipe rnd (survivors dt (pipes s)) <> []
                /\ 88 <= pipe_x (last (spawnPipe rnd (survivors dt (pipes s)))
                                      (newPipe rnd))).
  { unfold spawnPipe. generalize (survivors dt (pipes s)). intro l.
    destruct (Nat.eqb (length l) 0) eqn:El; simpl.
    - split; [now destruct l|]. rewrite last_last. simpl.
      unfold CANVAS_WIDTH. lra.
    - destruct (Qltb _ _) eqn:Eq.
      + split; [now destruct l|]. rewrite last_last. simpl.
        unfold CANVAS_WIDTH. lra.
      + apply Qltb_false in Eq. split; [now destruct l|].
        unfold CANVAS_WIDTH in Eq. lra. }
  destruct Hsp as [Hne Hl]. split.
  - intro E. rewrite E in Hx. simpl in Hx. symmetry in Hx.
    apply map_eq_nil in Hx. contradiction.
  - rewrite <- last_of_map, Hx, last_of_map. exact Hl.
Qed.

(** ** Score *)

Section ScoreSteps.

Lemma jump_session (now : Z) (e : Env) :
  let s := gameStateRef e in
  let s' := gameStateRef (jump now e) in
  pipes s' = pipes s /\ score s' = score s /\ gameOver s' = gameOver s
  /\ bird_y (bird s') = bird_y (bird s)
  /\ frameCount s' = frameCount s
  /\ (gameStarted s = true -> gameStarted s' = true).
Proof.
  cbv zeta. unfold jump. destruct (_ <? _)%Z; [repeat split; auto|].
  destruct (gameStarted (gameStateRef e)) eqn:Es,
           (gameOver (gameStateRef e)) eqn:Eo;
    simpl; rewrite ?Es, ?Eo; repeat split; auto.
Qed.

Lemma passing_at_most_one (ps : list Pipe) :
  spaced ps ->
  Forall (fun q => passing q = true -> -4 <= pipe_x q /\ pipe_x q < -2) ps ->
  (length (filter passing ps) <= 1)%nat.
Proof.
  unfold spaced. induction ps as [|p rest IH]; intros Hs Hw; simpl.
  - lia.
  - simpl in Hs. apply StronglySorted_inv in Hs. destruct Hs as [Hs Hall].
    inversion Hw as [|? ? Hp Hrest]; subst.
    destruct (passing p) eqn:Ep; [|now apply IH].
    assert (Hnone : filter passing rest = []).
    { destruct (filter passing rest) as [|q l] eqn:Ef; [reflexivity|].
      exfalso.
      assert (Hq : In q (filter passing rest)) by (rewrite Ef; now left).
      apply filter_In in Hq. destruct Hq as [Hq Hqp].
      rewrite Forall_forall in Hall, Hrest.
      assert (Hpq : pipe_x p + 200 < pipe_x q).
      { apply Hall. apply in_map_iff. now exists q. }
      destruct (Hp eq_refl) as [Hp1 _].
      destruct (Hrest q Hq Hqp) as [_ Hq2]. lra. }
    rewrite Hnone. simpl. lia.
Qed.

(** Pipes that fulfil the scoring condition in a frame crossed the
    anchor line in that very frame. *)
Lemma passing_window (dt rnd : Q) (ps : list Pipe) :
  0 <= dt -> dt <= 1 -> Forall marked ps ->
  Forall (fun q => passing q = true -> -4 <= pipe_x q /\ pipe_x q < -2)
         (spawnPipe rnd (survivors dt ps)).
Proof.
  intros H0 H1 Hm. rewrite Forall_forall in *. intros q Hq Hp.
  apply passing_true in Hp. destruct Hp as [Hs Hx].
  apply spawnPipe_In in Hq. destruct Hq as [Hq| ->].
  - apply survivors_In in Hq. destruct Hq as [p [Hp [-> _]]].
    simpl in *. specialize (Hm p Hp). unfold marked in Hm.
    assert (Hold : ~ pipe_x p + PIPE_WIDTH < 50).
    { intro L. rewrite (Hm L) in Hs. discriminate. }
    unfold PIPE_WIDTH, PIPE_SPEED in *. split; lra.
  - simpl in Hx. unfold CANVAS_WIDTH, PIPE_WIDTH in Hx. lra.
Qed.

End ScoreSteps.

(** X4.  In every run, no event other than a restart lowers the score,
    and none raises it by more than one: a frame scores at most one
    pipe. *)
Theorem score_steps_by_one (ev : Event) (e : Env) :
  reachable e -> admissible ev e -> ~ isRestart ev ->
  (score (gameStateRef e) <= score (gameStateRef (handle ev e))
   <= score (gameStateRef e) + 1)%Z.
Proof.
  intros Hr Ha Hn.
  assert (Hj : forall now,
             (score (gameStateRef e) <= score (gameStateRef (jump now e))
              <= score (gameStateRef e) + 1)%Z).
  { intro now. destruct (jump_session now e) as (_ & -> & _). lia. }
  destruct ev; simpl in *.
  - destruct Ha as (Ht & Hr0 & Hr1).
    unfold gameLoop, frameWith.
    destruct (gameStarted (gameStateRef e)) eqn:Es; simpl; [|lia].
    destruct (gameOver (gameStateRef e)) eqn:Eo; simpl; [lia|].
    set (dt := deltaTime currentTime (lastFrameTimeRef e)).
    set (u0 := set_pendingSounds [] (ui e)).
    assert (Hsc : score (fst (update dt rnd (gameStateRef e) u0))
                  = snd (fst (fst (checkPipes (nextY dt (gameStateRef e))
                                     (spawnPipe rnd
                                        (survivors dt (pipes (gameStateRef e))))
                                     (score (gameStateRef e)) u0))))
      by (rewrite update_spec; reflexivity).
    pose proof (checkPipes_score (nextY dt (gameStateRef e))
                  (spawnPipe rnd (survivors dt (pipes (gameStateRef e))))
                  (score (gameStateRef e)) u0) as Hb.
    rewrite <- Hsc in Hb.
    assert (Hone : (length (filter passing
                              (spawnPipe rnd
                                 (survivors dt (pipes (gameStateRef e)))))
                    <= 1)%nat).
    { apply passing_at_most_one.
      - apply spawnPipe_spaced, survivors_spaced.
        exact (wf_spaced e (reachable_Wf e Hr)).
      - apply passing_window.
        + now apply deltaTime_nonneg.
        + apply deltaTime_le_1.
        + exact (inv_marked e (reachable_Inv e Hr)). }
    destruct (update dt rnd (gameStateRef e) u0) as [s' u']. simpl in *. lia.
  - unfold handleKeyPress. destruct (String.eqb _ _); [|lia].
    destruct (negb (gameStarted _)); [simpl; lia|].
    destruct (negb _); [apply Hj | lia].
  - unfold handleCanvasClick. destruct (gameOver _); [lia | apply Hj].
  - unfold handleTouchStart. destruct (gameOver _); [lia | apply Hj].
  - now elim Hn.
Qed.

Lemma score_steps_by_one_witness :
  (score (gameStateRef firstFrameEnv)
   <= score (gameStateRef (gameLoop 34 (1 # 8) firstFrameEnv))
   <= score (gameStateRef firstFrameEnv) + 1)%Z.
Proof.
  apply (score_steps_by_one (Frame 34 (1 # 8)) firstFrameEnv).
  - exact firstFrameEnv_reachable.
  - vm_compute. repeat split; discriminate.
  - exact (fun H => H).
Defined.

(** ** Phases *)

Ltac keep_flags :=
  split; intro; try discriminate; try congruence; auto.

(** X5.  No event other than a restart takes a session back: a started
    session stays started, a session that is over stays over, and the
    phase only moves forward from NotStarted over Running to Over.  A
    restart always yields a Running session. *)
Theorem phase_never_goes_back (ev : Event) (e : Env) :
  let s := gameStateRef e in
  let s' := gameStateRef (handle ev e) in
  (~ isRestart ev ->
   (gameStarted s = true -> gameStarted s' = true)
   /\ (gameOver s = true -> gameOver s' = true)
   /\ (phaseRank s <= phaseRank s')%nat)
  /\ (isRestart ev -> phase s' = Some Running).
Proof.
  cbv zeta. split.
  - intro Hn.
    assert (Hmono : (gameStarted (gameStateRef e) = true ->
                     gameStarted (gameStateRef (handle ev e)) = true)
                    /\ (gameOver (gameStateRef e) = true ->
                        gameOver (gameStateRef (handle ev e)) = true)).
    { assert (Hj : forall now,
                 (gameStarted (gameStateRef e) = true ->
                  gameStarted (gameStateRef (jump now e)) = true)
                 /\ (gameOver (gameStateRef e) = true ->
                     gameOver (gameStateRef (jump now e)) = true)).
      { intro now. destruct (jump_session now e) as (_ & _ & -> & _ & _ & H).
        keep_flags. }
      destruct ev; simpl.
      - unfold gameLoop, frameWith.
        destruct (gameStarted (gameStateRef e)) eqn:Es; simpl; [|keep_flags].
        destruct (gameOver (gameStateRef e)) eqn:Eo; simpl; [keep_flags|].
        pose proof (update_gameStarted
                      (deltaTime currentTime (lastFrameTimeRef e)) rnd
                      (gameStateRef e) (set_pendingSounds [] (ui e))) as Hs.
        destruct (update _ _ _ _) as [s' u']. simpl in *. keep_flags.
      - unfold handleKeyPress. destruct (String.eqb _ _); [|keep_flags].
        destruct (gameStarted (gameStateRef e)) eqn:Es; simpl.
        + destruct (negb _); [apply Hj | keep_flags].
        + keep_flags.
      - unfold handleCanvasClick.
        destruct (gameOver (gameStateRef e)) eqn:Eo; [keep_flags | apply Hj].
      - unfold handleTouchStart.
        destruct (gameOver (gameStateRef e)) eqn:Eo; [keep_flags | apply Hj].
      - now elim Hn. }
    destruct Hmono as (Hs & Ho). split; [exact Hs|]. split; [exact Ho|].
    unfold phaseRank.
    destruct (gameOver (gameStateRef e)).
    + rewrite (Ho eq_refl). lia.
    + destruct (gameStarted (gameStateRef e)).
      * rewrite (Hs eq_refl). destruct (gameOver _); lia.
      * destruct (gameOver _); [lia|]. destruct (gameStarted _); lia.
  - destruct ev; simpl; try contradiction. reflexivity.
Qed.

Lemma phase_never_goes_back_witness :
  (phaseRank (gameStateRef initialEnv)
   <= phaseRank (gameStateRef (handle (Click 1000) initialEnv)))%nat
  /\ phase (gameStateRef (handle Restart (crashedEnv 3))) = Some Running.
Proof.
  split.
  - apply (phase_never_goes_back (Click 1000) initialEnv).
    exact (fun H => H).
  - apply (phase_never_goes_back Restart (crashedEnv 3)). exact I.
Defined.

(** X6.  Once the session is over, frames, key presses, clicks and
    touches all leave the session object as it is, bird, pipes and
    score included; only a restart gets the game going again. *)
Theorem over_is_frozen (ev : Event) (e : Env) :
  phase (gameStateRef e) = Some Over -> ~ isRestart ev ->
  gameStateRef (handle ev e) = gameStateRef e
  /\ lastJumpTimeRef (handle ev e) = lastJumpTimeRef e
  /\ finalScore (ui (handle ev e)) = finalScore (ui e)
  /\ isGameOver (ui (handle ev e)) = isGameOver (ui e).
Proof.
  unfold phase. intros Hp Hn.
  destruct (gameStarted (gameStateRef e)) eqn:Es,
           (gameOver (gameStateRef e)) eqn:Eo; try discriminate.
  destruct ev; simpl.
  - unfold gameLoop, frameWith. rewrite Es, Eo. simpl. auto.
  - unfold handleKeyPress. destruct (String.eqb _ _); [|auto].
    rewrite Es, Eo. simpl. auto.
  - unfold handleCanvasClick. rewrite Eo. auto.
  - unfold handleTouchStart. rewrite Eo. auto.
  - now elim Hn.
Qed.

Lemma over_is_frozen_witness :
  gameStateRef (handle (KeyDown "Space" 5000) (crashedEnv 3))
  = gameStateRef (crashedEnv 3).
Proof.
  apply (over_is_frozen (KeyDown "Space" 5000) (crashedEnv 3)).
  - reflexivity.
  - exact (fun H => H).
Defined.

(** X7.  In every run, a session that has not been started is still the
    initial one (bird at 200, at rest, no pipes, score 0), whatever
    frames were drawn and whatever keys other than Space were pressed;
    frames do not change it. *)
Theorem not_started_is_initial (e : Env) (currentTime rnd : Q) :
  reachable e ->
  phase (gameStateRef e) = Some NotStarted ->
  gameStateRef e = freshState false
  /\ gameStateRef (gameLoop currentTime rnd e) = gameStateRef e
  /\ lastJumpTimeRef e = 0%Z.
Proof.
  intros Hr Hp. destruct (notStarted_flags _ Hp) as [Hs Ho].
  split; [exact (wf_notStarted e (reachable_Wf e Hr) Hs)|].
  split.
  - unfold gameLoop, frameWith. rewrite Hs. reflexivity.
  - exact (proj1 (inv_idle e (reachable_Inv e Hr) Hs)).
Qed.

Lemma not_started_is_initial_witness :
  gameStateRef (gameLoop 17 0 (handle (KeyDown "Enter" 1000) initialEnv))
  = freshState false.
Proof.
  assert (Hr : reachable (handle (KeyDown "Enter" 1000) initialEnv)).
  { apply reachable_step; [exact reachable_init | exact I]. }
  destruct (not_started_is_initial _ 17 0 Hr eq_refl) as (H1 & H2 & _).
  now rewrite H2.
Defined.

(** ** Bird *)

(** X8.  In every run, as long as the session is not over the bird's
    height lies between 0 and the canvas height at the end of every
    event; and the bird never moves upwards faster than
    [JUMP_STRENGTH]. *)
Theorem bird_stays_on_canvas (e : Env) :
  reachable e ->
  (gameOver (gameStateRef e) = false ->
   0 <= bird_y (bird (gameStateRef e))
   /\ bird_y (bird (gameStateRef e)) <= CANVAS_HEIGHT)
  /\ - JUMP_STRENGTH <= bird_velocity (bird (gameStateRef e)).
Proof.
  intro Hr. pose proof (reachable_Wf e Hr) as H.
  split; [exact (wf_height e H) | exact (wf_velocity e H)].
Qed.

Lemma bird_stays_on_canvas_witness :
  0 <= bird_y (bird (gameStateRef firstFrameEnv))
  /\ bird_y (bird (gameStateRef firstFrameEnv)) <= CANVAS_HEIGHT.
Proof.
  apply (bird_stays_on_canvas firstFrameEnv firstFrameEnv_reachable).
  reflexivity.
Defined.

(** X9.  In every run the React state mirrors the session: [isGameOver]
    and [isGameStarted] equal the session's flags, and [finalScore] is
    the session's score once it is over and 0 before; the score is
    never negative. *)
Theorem react_state_mirrors_session (e : Env) :
  reachable e ->
  isGameOver (ui e) = gameOver (gameStateRef e)
  /\ isGameStarted (ui e) = gameStarted (gameStateRef e)
  /\ finalScore (ui e)
     = (if gameOver (gameStateRef e) then score (gameStateRef e) else 0%Z)
  /\ (0 <= score (gameStateRef e))%Z.
Proof.
  intro Hr. pose proof (reachable_Wf e Hr) as H.
  split; [exact (wf_isGameOver e H)|].
  split; [exact (wf_isGameStarted e H)|].
  split; [exact (wf_finalScore e H) | exact (wf_score e H)].
Qed.

Lemma react_state_mirrors_session_witness :
  isGameOver (ui firstFrameEnv) = gameOver (gameStateRef firstFrameEnv)
  /\ isGameStarted (ui firstFrameEnv) = gameStarted (gameStateRef firstFrameEnv).
Proof.
  destruct (react_state_mirrors_session firstFrameEnv firstFrameEnv_reachable)
    as (H1 & H2 & _).
  split; assumption.
Defined.

(** ** Sound mailbox *)

Section Sounds.

Variable y : Q.

Lemma soundsOf_point (sc0 sc : Z) :
  (sc0 <= sc)%Z ->
  set_add Point (soundsOf sc0 sc false) = soundsOf sc0 (sc + 1) false.
Proof.
  intro H. unfold soundsOf.
  destruct (sc0 <? sc)%Z eqn:E1; destruct (sc0 <? sc + 1)%Z eqn:E2;
    try reflexivity; exfalso;
    rewrite ?Z.ltb_lt, ?Z.ltb_ge in *; lia.
Qed.

Lemma soundsOf_hit (sc0 sc : Z) (over : bool) :
  set_add Hit (soundsOf sc0 sc over) = soundsOf sc0 sc true.
Proof.
  unfold soundsOf. destruct (sc0 <? sc)%Z, over; reflexivity.
Qed.

Lemma checkPipes_sounds (sc0 : Z) (ps : list Pipe) (sc : Z) (u : Ui) :
  (sc0 <= sc)%Z ->
  pendingSounds u = soundsOf sc0 sc false ->
  let r := checkPipes y ps sc u in
  pendingSounds (snd r) = soundsOf sc0 (snd (fst (fst r))) (snd (fst r)).
Proof.
  revert sc u. induction ps as [|p rest IH]; intros sc u Hle Hu; simpl.
  - exact Hu.
  - assert (H1 : pendingSounds (snd (scorePipe p sc u))
                 = soundsOf sc0 (snd (fst (scorePipe p sc u))) false
                 /\ (sc0 <= snd (fst (scorePipe p sc u)))%Z).
    { unfold scorePipe. destruct (_ && _); simpl.
      - rewrite Hu. split; [now apply soundsOf_point | lia].
      - auto. }
    destruct (scorePipe p sc u) as [[p1 sc1] u1]. simpl in H1.
    destruct H1 as [Hu1 Hle1].
    assert (Hh : pendingSounds (hit sc1 u1) = soundsOf sc0 sc1 true).
    { unfold hit, queueSound. simpl. rewrite Hu1. apply soundsOf_hit. }
    destruct (intersects _ (topPipeRect p1)); [exact Hh|].
    destruct (intersects _ (bottomPipeRect p1)); [exact Hh|].
    specialize (IH sc1 u1 Hle1 Hu1). cbv zeta in IH.
    destruct (checkPipes y rest sc1 u1) as [[[rest' sc'] over] u'].
    exact IH.
Qed.

End Sounds.

(** X10.  A frame first empties the sound mailbox.  A running frame then
    leaves in it the point sound exactly when the score went up and the
    hit sound exactly when the session is over, in this order and each at
    most once; the wing sound is never queued.  Any other frame leaves
    the mailbox empty. *)
Theorem frame_sounds (currentTime rnd : Q) (e : Env) :
  let e' := gameLoop currentTime rnd e in
  pendingSounds (ui e')
  = match phase (gameStateRef e) with
    | Some Running =>
        soundsOf (score (gameStateRef e)) (score (gameStateRef e'))
                 (gameOver (gameStateRef e'))
    | _ => []
    end.
Proof.
  cbv zeta. unfold gameLoop.
  destruct (phase (gameStateRef e)) as [[| |]|] eqn:Hp;
    try (rewrite frameWith_idle by congruence; reflexivity).
  rewrite (frameWith_running _ _ _ _ Hp). cbn [ui gameStateRef].
  set (dt := deltaTime currentTime (lastFrameTimeRef e)).
  set (u0 := set_pendingSounds [] (ui e)).
  rewrite update_spec. cbn -[checkPipes hit soundsOf].
  pose proof (checkPipes_sounds (nextY dt (gameStateRef e))
                (score (gameStateRef e))
                (spawnPipe rnd (survivors dt (pipes (gameStateRef e))))
                (score (gameStateRef e)) u0 (Z.le_refl _)) as Hs.
  cbv zeta in Hs.
  assert (H0 : pendingSounds u0
               = soundsOf (score (gameStateRef e)) (score (gameStateRef e))
                          false).
  { unfold soundsOf. rewrite Z.ltb_irrefl. reflexivity. }
  specialize (Hs H0).
  destruct (checkPipes _ _ _ _) as [[[ps' sc'] over] u1]. simpl in Hs.
  cbn [fst snd]. destruct (outOfBounds (nextY dt (gameStateRef e))).
  - unfold hit, queueSound. simpl. rewrite Hs. apply soundsOf_hit.
  - simpl. exact Hs.
Qed.

(** ** Animation *)

(** X11.  In every run the sprite index is 0, 1 or 2, so it always
    selects one of the three bird sprites, and the frame counter is not
    negative.  A running frame adds one to the counter and moves the
    sprite on by one, cyclically, exactly when the new count is a
    multiple of 5. *)
Theorem sprite_index_valid (e : Env) (currentTime rnd : Q) :
  reachable e ->
  let s := gameStateRef e in
  let s' := gameStateRef (gameLoop currentTime rnd e) in
  (0 <= bird_frame (bird s) <= 2)%Z
  /\ (0 <= frameCount s)%Z
  /\ (phase s = Some Running ->
      frameCount s' = (frameCount s + 1)%Z
      /\ bird_frame (bird s')
         = (if (frameCount s' mod 5 =? 0)%Z
            then (bird_frame (bird s) + 1) mod 3
            else bird_frame (bird s))%Z).
Proof.
  intro Hr. cbv zeta. pose proof (reachable_Wf e Hr) as H.
  pose proof (wf_sprite e H) as Hf. pose proof (wf_frameCount e H) as Hc.
  split; [exact Hf|]. split; [exact Hc|].
  intro Hp. unfold gameLoop. rewrite (frameWith_running _ _ _ _ Hp).
  cbn [gameStateRef]. rewrite update_spec. cbn -[checkPipes Z.rem Z.modulo].
  split; [reflexivity|].
  rewrite !Z.rem_mod_nonneg by lia. reflexivity.
Qed.

Lemma sprite_index_valid_witness :
  (0 <= bird_frame (bird (gameStateRef firstFrameEnv)) <= 2)%Z
  /\ frameCount (gameStateRef (gameLoop 34 0 firstFrameEnv))
     = (frameCount (gameStateRef firstFrameEnv) + 1)%Z.
Proof.
  destruct (sprite_index_valid firstFrameEnv 34 0 firstFrameEnv_reachable)
    as (H1 & _ & H2).
  split; [exact H1|]. apply H2. reflexivity.
Defined.

(** ** First frame of a new session *)

(** X12.  Whatever the timestamp of the first frame after a restart, it
    carries no backlog: the bird is still at height 200 and at rest, the
    first pipe appears at the right edge, the score is 0 and the session
    is Running. *)
Theorem first_frame_after_restart (e : Env) (currentTime rnd : Q) :
  let e' := gameLoop currentTime rnd (restartGame e) in
  bird_y (bird (gameStateRef e')) == 200
  /\ bird_velocity (bird (gameStateRef e')) == 0
  /\ pipes (gameStateRef e') = [newPipe rnd]
  /\ score (gameStateRef e') = 0%Z
  /\ phase (gameStateRef e') = Some Running
  /\ frameCount (gameStateRef e') = 1%Z
  /\ lastFrameTimeRef e' = currentTime.
Proof.
  cbv zeta. unfold gameLoop.
  rewrite frameWith_running by reflexivity.
  cbn [gameStateRef lastFrameTimeRef restartGame].
  pose proof (deltaTime_first currentTime) as Hdt.
  set (dt := deltaTime currentTime 0) in *.
  set (u0 := set_pendingSounds [] _).
  assert (Hv : nextVelocity dt (freshState true) == 0).
  { unfold nextVelocity. simpl. rewrite Hdt. ring. }
  assert (Hy : nextY dt (freshState true) == 200).
  { unfold nextY. rewrite Hv. simpl. ring. }
  assert (Hb : outOfBounds (nextY dt (freshState true)) = false).
  { apply outOfBounds_false. rewrite Hy. unfold CANVAS_HEIGHT. split; lra. }
  rewrite update_spec. cbn -[nextY nextVelocity outOfBounds].
  unfold phase. cbn -[nextY nextVelocity outOfBounds]. rewrite Hb.
  repeat split; auto.
Qed.

(** ** Where the bird collides *)

(** X13.  A pipe ends the game exactly when it overlaps the bird's
    column, its x strictly between -2 and 84, and the bird sticks out of
    the gap above or below.  So a bird that is inside the gap never
    collides, and neither does a pipe that has passed the anchor or one
    that has not reached the bird yet. *)
Theorem collision_zone (y : Q) (p : Pipe) :
  (collides y p = true <->
   (-2 < pipe_x p /\ pipe_x p < 84)
   /\ ((y < pipe_topHeight p /\ -24 < y)
       \/ (pipe_topHeight p + PIPE_GAP < y + BIRD_HEIGHT /\ y < CANVAS_HEIGHT)))
  /\ (pipe_topHeight p <= y ->
      y + BIRD_HEIGHT <= pipe_topHeight p + PIPE_GAP ->
      collides y p = false)
  /\ (pipe_x p + PIPE_WIDTH <= 50 -> collides y p = false)
  /\ (84 <= pipe_x p -> collides y p = false).
Proof.
  assert (Hiff : collides y p = true <->
            (-2 < pipe_x p /\ pipe_x p < 84)
            /\ ((y < pipe_topHeight p /\ -24 < y)
                \/ (pipe_topHeight p + PIPE_GAP < y + BIRD_HEIGHT
                    /\ y < CANVAS_HEIGHT))).
  { unfold collides. rewrite orb_true_iff, !intersects_true.
    unfold overlapsX, overlapsY. simpl.
    unfold BIRD_X, BIRD_WIDTH, BIRD_HEIGHT, PIPE_WIDTH, PIPE_GAP,
      CANVAS_HEIGHT.
    split.
    - intros [[[H1 H2] [H3 H4]]|[[H1 H2] [H3 H4]]].
      + split; [split; lra|]. left. split; lra.
      + split; [split; lra|]. right. split; lra.
    - intros [[H1 H2] [[H3 H4]|[H3 H4]]].
      + left. repeat split; lra.
      + right. repeat split; lra. }
  assert (Hno : forall P : Prop,
             (collides y p = true -> P) -> ~ P -> collides y p = false).
  { intros P H Hn. destruct (collides y p); [|reflexivity].
    elim Hn. now apply H. }
  split; [exact Hiff|].
  unfold BIRD_HEIGHT, PIPE_GAP, PIPE_WIDTH, CANVAS_HEIGHT in *.
  split; [|split].
  - intros H1 H2. apply (Hno _ (proj1 Hiff)). intros [_ [[? ?]|[? ?]]]; lra.
  - intro H. apply (Hno _ (proj1 Hiff)). intros [[? ?] _]; lra.
  - intro H. apply (Hno _ (proj1 Hiff)). intros [[? ?] _]; lra.
Qed.

Lemma collision_zone_witness :
  collides 150 (mkPipe 40 100 false) = false
  /\ collides 90 (mkPipe 40 100 false) = true.
Proof.
  destruct (collision_zone 150 (mkPipe 40 100 false)) as (_ & Hgap & _).
  destruct (collision_zone 90 (mkPipe 40 100 false)) as (Hiff & _).
  split.
  - apply Hgap; unfold Qle; simpl; lia.
  - apply Hiff. split; [split; reflexivity|]. left. split; reflexivity.
Defined.

(** ** Points and marks *)

Section Marks.

Variable y : Q.

Lemma checkPipes_counts (ps : list Pipe) (sc : Z) (u : Ui) :
  let r := checkPipes y ps sc u in
  (snd (fst (fst r)) - sc
   = countScored (fst (fst (fst r))) - countScored ps)%Z.
Proof.
  unfold countScored. revert sc u.
  induction ps as [|p rest IH]; intros sc u.
  - simpl. lia.
  - cbn [checkPipes].
    assert (Hp : (snd (fst (scorePipe p sc u)) - sc
                  = (if pipe_scored (fst (fst (scorePipe p sc u)))
                     then 1 else 0)
                    - (if pipe_scored p then 1 else 0))%Z).
    { unfold scorePipe. destruct (pipe_scored p) eqn:Es; simpl.
      - rewrite Es. lia.
      - destruct (Qltb _ _); simpl; rewrite ?Es; lia. }
    assert (Hc : forall (q : Pipe) (l : list Pipe),
               Z.of_nat (length (filter pipe_scored (q :: l)))
               = ((if pipe_scored q then 1 else 0)
                  + Z.of_nat (length (filter pipe_scored l)))%Z).
    { intros q l. simpl. destruct (pipe_scored q); simpl length; lia. }
    destruct (scorePipe p sc u) as [[p1 sc1] u1]. simpl in Hp.
    destruct (intersects _ (topPipeRect p1));
      [cbn [fst snd]; rewrite !Hc; lia|].
    destruct (intersects _ (bottomPipeRect p1));
      [cbn [fst snd]; rewrite !Hc; lia|].
    specialize (IH sc1 u1). cbv zeta in IH.
    destruct (checkPipes y rest sc1 u1) as [[[rest' sc'] over] u'].
    cbn [fst snd] in *. rewrite !Hc. lia.
Qed.

End Marks.

(** X14.  A running frame raises the score by exactly the number of
    pipes it newly marks as scored: the score after the frame is the
    score before, plus the marked pipes in the array after the frame,
    minus the marked pipes among those that survived retirement. *)
Theorem score_counts_new_marks (dt rnd : Q) (s : GameState) (u : Ui) :
  score (fst (update dt rnd s u))
  = (score s + countScored (pipes (fst (update dt rnd s u)))
     - countScored (survivors dt (pipes s)))%Z.
Proof.
  rewrite update_spec. cbn -[checkPipes].
  pose proof (checkPipes_counts (nextY dt s)
                (spawnPipe rnd (survivors dt (pipes s))) (score s) u) as H.
  cbv zeta in H.
  assert (Hs : countScored (spawnPipe rnd (survivors dt (pipes s)))
               = countScored (survivors dt (pipes s))).
  { unfold spawnPipe, countScored. destruct (_ || _); [|reflexivity].
    rewrite filter_app. simpl. now rewrite app_nil_r. }
  rewrite Hs in H. lia.
Qed.

(** ** Presentation *)

Section Presentation.

Lemma Math_max_spec (a b : Q) :
  a <= Math_max a b /\ b <= Math_max a b
  /\ (Math_max a b = a \/ Math_max a b = b).
Proof.
  unfold Math_max. destruct (Qle_bool a b) eqn:E.
  - apply Qle_bool_iff in E. repeat split; auto; lra.
  - assert (H : ~ a <= b) by (intro L; apply Qle_bool_iff in L; congruence).
    repeat split; auto; lra.
Qed.

Lemma Math_min_spec (a b : Q) :
  Math_min a b <= a /\ Math_min a b <= b
  /\ (Math_min a b = a \/ Math_min a b = b).
Proof.
  unfold Math_min. destruct (Qle_bool a b) eqn:E.
  - apply Qle_bool_iff in E. repeat split; auto; lra.
  - assert (H : ~ a <= b) by (intro L; apply Qle_bool_iff in L; congruence).
    repeat split; auto; lra.
Qed.

End Presentation.

(** X15.  On a window narrower than 768 the scale makes the canvas cover
    the window: the scaled canvas is at least as wide and as high as the
    window and fits it exactly in one of the two directions.  On wider
    windows the scale is 1. *)
Theorem updateScale_covers (innerWidth innerHeight : Q) :
  let scale := updateScale innerWidth innerHeight in
  (innerWidth < 768 ->
   innerWidth <= CANVAS_WIDTH * scale
   /\ innerHeight <= CANVAS_HEIGHT * scale
   /\ (CANVAS_WIDTH * scale == innerWidth
       \/ CANVAS_HEIGHT * scale == innerHeight))
  /\ (768 <= innerWidth -> scale = 1).
Proof.
  cbv zeta. unfold updateScale. split; intro H.
  - apply Qltb_true in H. rewrite H.
    destruct (Math_max_spec (innerWidth / CANVAS_WIDTH)
                (innerHeight / CANVAS_HEIGHT)) as (Hw & Hh & Hc).
    set (m := Math_max _ _) in *.
    assert (Ew : innerWidth / CANVAS_WIDTH == innerWidth * (1 # 288))
      by (unfold CANVAS_WIDTH; field).
    assert (Eh : innerHeight / CANVAS_HEIGHT == innerHeight * (1 # 512))
      by (unfold CANVAS_HEIGHT; field).
    split; [|split].
    + rewrite Ew in Hw. unfold CANVAS_WIDTH. lra.
    + rewrite Eh in Hh. unfold CANVAS_HEIGHT. lra.
    + destruct Hc as [-> | ->]; [left | right].
      * unfold CANVAS_WIDTH. field.
      * unfold CANVAS_HEIGHT. field.
  - apply Qltb_false in H. now rewrite H.
Qed.

Lemma updateScale_covers_witness :
  360 <= CANVAS_WIDTH * updateScale 360 800
  /\ 800 <= CANVAS_HEIGHT * updateScale 360 800.
Proof.
  destruct (updateScale_covers 360 800) as [H _].
  destruct H as (Hw & Hh & _); [reflexivity|]. split; assumption.
Defined.

(** X16.  The tilt of the bird always lies between minus and plus a
    quarter of [Math.PI].  In every run the bird's upward speed is at
    most [JUMP_STRENGTH], a tenth of which is less than that quarter: the
    lower cut-off never applies, and the tilt is the smaller of a tenth
    of the velocity and the quarter. *)
Theorem birdRotation_bounds (PI : Q) (e : Env) :
  3 < PI ->
  let s := gameStateRef e in
  (- PI / 4 <= birdRotation PI s /\ birdRotation PI s <= PI / 4)
  /\ (reachable e ->
      birdRotation PI s
      = Math_min (PI / 4) (bird_velocity (bird s) * (1 # 10))).
Proof.
  intros Hpi. cbv zeta. unfold birdRotation.
  set (v := bird_velocity (bird (gameStateRef e)) * (1 # 10)).
  destruct (Math_max_spec (- PI / 4) v) as (Hl & Hv & Hc).
  destruct (Math_min_spec (PI / 4) (Math_max (- PI / 4) v)) as (H1 & H2 & H3).
  assert (E1 : PI / 4 == PI * (1 # 4)) by field.
  assert (E2 : - PI / 4 == - (PI * (1 # 4))) by field.
  split.
  - split; [|exact H1].
    destruct H3 as [-> | ->]; [|exact Hl]. rewrite E1, E2. lra.
  - intro Hr. pose proof (wf_velocity e (reachable_Wf e Hr)) as Hvel.
    assert (Hge : - PI / 4 <= v).
    { unfold v. rewrite E2. unfold JUMP_STRENGTH in Hvel. lra. }
    unfold Math_max. apply Qle_bool_iff in Hge. now rewrite Hge.
Qed.

Lemma birdRotation_bounds_witness :
  birdRotation Math_PI (gameStateRef firstFrameEnv)
  = Math_min (Math_PI / 4)
             (bird_velocity (bird (gameStateRef firstFrameEnv)) * (1 # 10)).
Proof.
  apply (birdRotation_bounds Math_PI firstFrameEnv).
  - reflexivity.
  - exact firstFrameEnv_reachable.
Defined.

(** * Properties of the score service *)

(** ** Trimming *)

Section Trim.

Lemma trimStart_head (s : JsString) (c : N) (rest : JsString) :
  trimStart s = c :: rest -> isWhiteSpace c = false.
Proof.
  induction s as [|a s IH]; simpl; [discriminate|].
  destruct (isWhiteSpace a) eqn:E; [exact IH|].
  intro H. injection H as <- _. exact E.
Qed.

Lemma trimStart_fixed (c : N) (rest : JsString) :
  isWhiteSpace c = false -> trimStart (c :: rest) = c :: rest.
Proof. intro H. simpl. now rewrite H. Qed.

Lemma trimStart_twice (s : JsString) : trimStart (trimStart s) = trimStart s.
Proof.
  destruct (trimStart s) as [|c rest] eqn:E; [reflexivity|].
  apply trimStart_fixed. exact (trimStart_head _ _ _ E).
Qed.

Lemma trimStart_length (s : JsString) :
  (length (trimStart s) <= length s)%nat.
Proof.
  induction s as [|a s IH]; simpl; [lia|].
  destruct (isWhiteSpace a); simpl; lia.
Qed.

Lemma trimStart_snoc (s : JsString) (c : N) :
  isWhiteSpace c = false -> trimStart (s ++ [c]) = trimStart s ++ [c].
Proof.
  intro H. induction s as [|a s IH]; simpl.
  - now rewrite H.
  - destruct (isWhiteSpace a); [exact IH | reflexivity].
Qed.

Lemma trimEnd_cons (c : N) (s : JsString) :
  isWhiteSpace c = false -> trimEnd (c :: s) = c :: trimEnd s.
Proof.
  intro H. unfold trimEnd. simpl.
  rewrite (trimStart_snoc _ _ H), rev_app_distr. reflexivity.
Qed.

Lemma trimEnd_length (s : JsString) : (length (trimEnd s) <= length s)%nat.
Proof.
  unfold trimEnd. rewrite length_rev.
  pose proof (trimStart_length (rev s)) as H. now rewrite length_rev in H.
Qed.

Lemma trimEnd_twice (s : JsString) : trimEnd (trimEnd s) = trimEnd s.
Proof.
  unfold trimEnd. now rewrite rev_involutive, trimStart_twice.
Qed.

(** A trimmed string is empty or begins with a code unit that is not
    white space. *)
Lemma trim_head (s : JsString) (c : N) (rest : JsString) :
  trim s = c :: rest -> isWhiteSpace c = false.
Proof.
  unfold trim. destruct (trimStart s) as [|a t] eqn:E.
  - discriminate.
  - pose proof (trimStart_head _ _ _ E) as Ha.
    rewrite (trimEnd_cons _ _ Ha). intro H. injection H as <- _. exact Ha.
Qed.

(** ... and ends with one. *)
Lemma trim_last (s : JsString) (c : N) (front : JsString) :
  trim s = front ++ [c] -> isWhiteSpace c = false.
Proof.
  unfold trim, trimEnd. intro H.
  apply (f_equal (@rev N)) in H.
  rewrite rev_involutive, rev_app_distr in H. simpl in H.
  exact (trimStart_head _ _ _ H).
Qed.

Lemma trim_length (s : JsString) : (length (trim s) <= length s)%nat.
Proof.
  unfold trim. pose proof (trimEnd_length (trimStart s)).
  pose proof (trimStart_length s). lia.
Qed.

Lemma trim_twice (s : JsString) : trim (trim s) = trim s.
Proof.
  unfold trim at 1.
  assert (H : trimStart (trim s) = trim s).
  { destruct (trim s) as [|c rest] eqn:E; [reflexivity|].
    apply trimStart_fixed. exact (trim_head _ _ _ E). }
  rewrite H. unfold trim. apply trimEnd_twice.
Qed.

End Trim.

(** ** Submitting a score *)

Section ScoreServiceFacts.

Variable Stored : Type.
Variable insertScore : ScoreRow -> option Stored.
Variable jwtVerify : JsString -> option User.

Lemma insertAndAnswer_spec (row : ScoreRow) :
  snd (insertAndAnswer Stored insertScore row) = [row]
  /\ fst (insertAndAnswer Stored insertScore row)
     = match insertScore row with
       | Some data => mkResponse 200 (BodyData data)
       | None => mkResponse 500 (BodyError "Failed to save score")
       end.
Proof. unfold insertAndAnswer. destruct (insertScore row); auto. Qed.

Lemma insertAndAnswer_status (row : ScoreRow) :
  status (fst (insertAndAnswer Stored insertScore row)) <> 400%Z.
Proof. unfold insertAndAnswer. destruct (insertScore row); discriminate. Qed.

Lemma postScoresAuth_rows (authHeader : option JsString) (b : ScoresBody)
      (n : Q) :
  body_score b = JNumber n -> 0 <= n ->
  postScoresAuth Stored insertScore jwtVerify authHeader b
  = insertAndAnswer Stored insertScore
      (match optionalAuth jwtVerify authHeader with
       | Some user => mkScoreRow (user_username user) n (Some (user_id user))
       | None => mkScoreRow (guestName (body_player_name b)) n None
       end).
Proof.
  intros Hb Hn. unfold postScoresAuth. rewrite Hb.
  apply Qltb_false in Hn. rewrite Hn.
  now destruct (optionalAuth jwtVerify authHeader).
Qed.


Lemma splitOn_noSpace (t : JsString) :
  noSpace t = true -> splitOn 32 t = [t].
Proof.
  unfold noSpace. induction t as [|c t IH]; simpl; [reflexivity|].
  intro H. apply andb_true_iff in H. destruct H as [Hc Ht].
  apply negb_true_iff in Hc. rewrite Hc, (IH Ht). reflexivity.
Qed.

Lemma bearerToken_of_header (t : JsString) :
  noSpace t = true -> t <> [] ->
  bearerToken (Some (lit "Bearer " ++ t)) = Some t.
Proof.
  intros Hs Hne. unfold bearerToken.
  change (lit "Bearer " ++ t)
    with (66 :: 101 :: 97 :: 114 :: 101 :: 114 :: 32 :: t)%N.
  cbn [splitOn N.eqb Pos.eqb]. rewrite (splitOn_noSpace t Hs).
  cbn [nth_error]. destruct t; [now elim Hne | reflexivity].
Qed.

End ScoreServiceFacts.



(** X18.  The name stored for a guest has between 1 and 20 code units
    and does not begin with white space: it is the trimmed name the
    client sent, cut to 20 code units, or ["Anonymous"] when that is not
    a string or is blank. *)
Theorem guest_name_bounds (player_name : Json) :
  (1 <= length (guestName player_name) <= 20)%nat
  /\ (exists c rest,
        guestName player_name = c :: rest /\ isWhiteSpace c = false)
  /\ (forall s, player_name = JString s -> trim s <> [] ->
        guestName player_name = firstn 20 (trim s))
  /\ (forall s, player_name = JString s -> trim s = [] ->
        guestName player_name = lit "Anonymous")
  /\ (isString player_name = false -> guestName player_name = lit "Anonymous").
Proof.
  assert (Hanon : (1 <= length (lit "Anonymous") <= 20)%nat
                  /\ exists c rest, lit "Anonymous" = c :: rest
                                    /\ isWhiteSpace c = false).
  { split; [simpl; lia|]. eexists. eexists. split; reflexivity. }
  assert (Hstr : forall s,
             (trim s <> [] -> guestName (JString s) = firstn 20 (trim s))
             /\ (trim s = [] -> guestName (JString s) = lit "Anonymous")).
  { intro s. unfold guestName, truthy.
    destruct (trim s) as [|c rest]; split; intro H; try reflexivity.
    - now elim H.
    - discriminate H. }
  split; [|split; [|split; [|split]]].
  - destruct player_name as [| | | |s|]; try exact (proj1 Hanon).
    destruct (Hstr s) as [H1 H2].
    destruct (trim s) as [|c rest] eqn:E.
    + rewrite H2 by reflexivity. exact (proj1 Hanon).
    + rewrite H1 by discriminate. rewrite length_firstn. simpl length. lia.
  - destruct player_name as [| | | |s|]; try exact (proj2 Hanon).
    destruct (Hstr s) as [H1 H2].
    destruct (trim s) as [|c rest] eqn:E.
    + rewrite H2 by reflexivity. exact (proj2 Hanon).
    + rewrite H1 by discriminate. exists c, (firstn 19 rest).
      split; [reflexivity|]. exact (trim_head _ _ _ E).
  - intros s ->. apply Hstr.
  - intros s ->. apply Hstr.
  - destruct player_name; try reflexivity. discriminate.
Qed.

Lemma guest_name_bounds_witness :
  guestName (JString (lit "  Ann ")) = lit "Ann"
  /\ guestName (JString (lit "   ")) = lit "Anonymous".
Proof.
  destruct (guest_name_bounds (JString (lit "  Ann ")))
    as (_ & _ & H1 & _).
  destruct (guest_name_bounds (JString (lit "   "))) as (_ & _ & _ & H2 & _).
  split.
  - rewrite (H1 _ eq_refl); [reflexivity | discriminate].
  - exact (H2 _ eq_refl eq_refl).
Defined.

(** X19.  With a token that verifies, the row stored carries the
    account's user name and id, whatever name the body carries.  The
    token is the part of the [Authorization] header after its first
    space: for the header ["Bearer " + token] that is the token itself
    when it has no space in it. *)
Theorem signed_in_scores_use_account
        (Stored : Type) (insertScore : ScoreRow -> option Stored)
        (jwtVerify : JsString -> option User)
        (token : JsString) (user : User) (b : ScoresBody) (n : Q) :
  noSpace token = true -> token <> [] ->
  jwtVerify token = Some user ->
  body_score b = JNumber n -> 0 <= n ->
  optionalAuth jwtVerify (Some (lit "Bearer " ++ token)) = Some user
  /\ snd (postScoresAuth Stored insertScore jwtVerify
            (Some (lit "Bearer " ++ token)) b)
     = [mkScoreRow (user_username user) n (Some (user_id user))].
Proof.
  intros Hs Hne Hv Hb Hn.
  assert (Ha : optionalAuth jwtVerify (Some (lit "Bearer " ++ token))
               = Some user).
  { unfold optionalAuth. now rewrite (bearerToken_of_header token Hs Hne). }
  split; [exact Ha|].
  rewrite (postScoresAuth_rows _ _ _ _ _ n Hb Hn), Ha.
  apply insertAndAnswer_spec.
Qed.

Lemma signed_in_scores_use_account_witness :
  snd (postScoresAuth unit (fun _ => Some tt)
         (fun _ => Some (mkUser 7 (lit "ann")))
         (Some (lit "Bearer " ++ lit "abc"))
         (mkScoresBody (JString (lit "Bob")) (JNumber 12)))
  = [mkScoreRow (lit "ann") 12 (Some 7%Z)].
Proof.
  apply (signed_in_scores_use_account unit (fun _ => Some tt)
           (fun _ => Some (mkUser 7 (lit "ann"))) (lit "abc")
           (mkUser 7 (lit "ann"))
           (mkScoresBody (JString (lit "Bob")) (JNumber 12)) 12).
  - reflexivity.
  - discriminate.
  - reflexivity.
  - reflexivity.
  - unfold Qle. simpl. lia.
Defined.

(** ** From the game-over overlay to the table *)

Section EndToEnd.

Lemma guestName_of_client (playerName : JsString) :
  guestName (JString (if truthy (JString (trim playerName))
                      then trim playerName else lit "Anonymous"))
  = guestName (JString playerName).
Proof.
  unfold guestName at 2.
  destruct (truthy (JString (trim playerName))) eqn:E.
  - unfold guestName. rewrite trim_twice, E. reflexivity.
  - reflexivity.
Qed.

Lemma submitRequest_guest (token : option JsString) (playerName : JsString)
      (finalScore : Z) :
  token = None \/ token = Some [] ->
  submitRequest token playerName finalScore
  = mkSubmitRequest None
      (mkScoresBody
         (JString (if truthy (JString (trim playerName))
                   then trim playerName else lit "Anonymous"))
         (JNumber (inject_Z finalScore))).
Proof. intros [-> | ->]; reflexivity. Qed.

Lemma inject_Z_nonneg (n : Z) : (0 <= n)%Z -> 0 <= inject_Z n.
Proof. intro H. unfold Qle. simpl. lia. Qed.

End EndToEnd.

(** X20.  A score submitted from the game-over overlay of any run is
    never answered with 400, and exactly one row is inserted.  For a
    guest the row carries the score and the name the server would have
    made of the name as typed: trimming and the ["Anonymous"] default on
    the client change nothing.  With a token (no space in it) the row
    carries the account when the token verifies; when it does not, the
    row is a guest's named ["Anonymous"], as no name is sent. *)
Theorem submitted_score_is_stored
        (Stored : Type) (insertScore : ScoreRow -> option Stored)
        (jwtVerify : JsString -> option User)
        (e : Env) (token : option JsString) (playerName : JsString) :
  reachable e ->
  let score := inject_Z (finalScore (ui e)) in
  let request := submitRequest token playerName (finalScore (ui e)) in
  let r := postScoresAuth Stored insertScore jwtVerify
             (req_authorization request) (req_body request) in
  status (fst r) <> 400%Z
  /\ (token = None \/ token = Some [] ->
      snd r = [mkScoreRow (guestName (JString playerName)) score None])
  /\ (forall t, token = Some t -> t <> [] -> noSpace t = true ->
      snd r = match jwtVerify t with
              | Some user =>
                  [mkScoreRow (user_username user) score (Some (user_id user))]
              | None => [mkScoreRow (lit "Anonymous") score None]
              end).
Proof.
  intros Hr. cbv zeta.
  assert (Hn : 0 <= inject_Z (finalScore (ui e))).
  { apply inject_Z_nonneg.
    pose proof (reachable_Wf e Hr) as H.
    rewrite (wf_finalScore e H). pose proof (wf_score e H).
    destruct (gameOver (gameStateRef e)); lia. }
  assert (Hb : body_score
                 (req_body (submitRequest token playerName (finalScore (ui e))))
               = JNumber (inject_Z (finalScore (ui e)))).
  { unfold submitRequest. destruct token as [t|]; [|reflexivity].
    now destruct (truthy (JString t)). }
  rewrite (postScoresAuth_rows _ _ _ _ _ _ Hb Hn).
  split; [apply insertAndAnswer_status|].
  split.
  - intro Hg. rewrite (submitRequest_guest _ _ _ Hg). cbn [req_authorization
      req_body body_player_name optionalAuth bearerToken].
    rewrite guestName_of_client. apply insertAndAnswer_spec.
  - intros t -> Hne Hs. unfold submitRequest.
    assert (Ht : truthy (JString t) = true) by (destruct t; [now elim Hne|reflexivity]).
    rewrite Ht. cbn [req_authorization req_body body_player_name].
    unfold optionalAuth. rewrite (bearerToken_of_header t Hs Hne).
    destruct (jwtVerify t); apply insertAndAnswer_spec.
Qed.

Lemma submitted_score_is_stored_witness :
  snd (postScoresAuth unit (fun _ => Some tt) (fun _ => None)
         (req_authorization
            (submitRequest None (lit " Ann ") (finalScore (ui firstFrameEnv))))
         (req_body
            (submitRequest None (lit " Ann ") (finalScore (ui firstFrameEnv)))))
  = [mkScoreRow (guestName (JString (lit " Ann ")))
                (inject_Z (finalScore (ui firstFrameEnv))) None].
Proof.
  apply (submitted_score_is_stored unit (fun _ => Some tt) (fun _ => None)
           firstFrameEnv None (lit " Ann ") firstFrameEnv_reachable).
  left. reflexivity.
Defined.

(** ** Registration *)

(** X21.  [POST /api/auth/register] inserts at most one player, and only
    one it has validated: the user name stored is the trimmed name sent,
    with 2 to 20 code units and no white space at either end, and the
    hash stored is that of a password of at least 4 code units.  A 400
    answer comes with no insert; the answer is 201 exactly when the
    insert succeeded and 409 exactly when it hit the unique
    constraint. *)
Theorem register_stores_validated_names
        (Player : Type) (playerUser : Player -> User)
        (bcryptHash : JsString -> JsString)
        (insertPlayer : PlayerRow -> InsertResult Player)
        (jwtSign : User -> JsString) (b : RegisterBody) :
  let r := postRegister Player playerUser bcryptHash insertPlayer jwtSign b in
  (length (snd r) <= 1)%nat
  /\ (status (fst r) = 400%Z -> snd r = [])
  /\ (forall row, In row (snd r) ->
      exists username password,
        body_username b = JString username
        /\ body_password b = JString password
        /\ row = mkPlayerRow (trim username) (bcryptHash password)
        /\ (2 <= length (row_username row) <= 20)%nat
        /\ (4 <= length password)%nat
        /\ trim (row_username row) = row_username row
        /\ (status (fst r) = 201%Z <->
            exists data, insertPlayer row = Inserted data)
        /\ (status (fst r) = 409%Z <-> insertPlayer row = UniqueViolation)).
Proof.
  cbv zeta. unfold postRegister.
  destruct (body_username b) as [| | | |username|] eqn:Eu;
    try (simpl; repeat split; auto; intros ? []).
  destruct (negb (truthy (JString username)) || badLength username) eqn:Ev;
    [simpl; repeat split; auto; intros ? []|].
  apply orb_false_iff in Ev. destruct Ev as [_ Hlen].
  unfold badLength in Hlen. apply orb_false_iff in Hlen.
  destruct Hlen as [H2 H20].
  apply Nat.ltb_ge in H2. apply Nat.ltb_ge in H20.
  destruct (body_password b) as [| | | |password|] eqn:Ep;
    try (simpl; repeat split; auto; intros ? []).
  destruct (negb (truthy (JString password)) || Nat.ltb (length password) 4)
    eqn:Ew; [simpl; repeat split; auto; intros ? []|].
  apply orb_false_iff in Ew. destruct Ew as [_ H4]. apply Nat.ltb_ge in H4.
  cbv zeta.
  set (row := mkPlayerRow (trim username) (bcryptHash password)).
  assert (Hrow : forall res : Response (Player * JsString),
             (status res = 201%Z <-> exists data, insertPlayer row = Inserted data) ->
             (status res = 409%Z <-> insertPlayer row = UniqueViolation) ->
             forall row', In row' (snd (res, [row])) ->
             exists username0 password0,
               JString username = JString username0
               /\ JString password = JString password0
               /\ row' = mkPlayerRow (trim username0) (bcryptHash password0)
               /\ (2 <= length (row_username row') <= 20)%nat
               /\ (4 <= length password0)%nat
               /\ trim (row_username row') = row_username row'
               /\ (status (fst (res, [row])) = 201%Z <->
                   exists data, insertPlayer row' = Inserted data)
               /\ (status (fst (res, [row])) = 409%Z <->
                   insertPlayer row' = UniqueViolation)).
  { intros res H201 H409 row' [<-|[]]. exists username, password.
    repeat split; auto; simpl; try lia; try apply trim_twice;
      try apply H201; try apply H409. }
  destruct (insertPlayer row) as [data| |] eqn:Ei.
  - split; [simpl; lia|]. split; [discriminate|].
    apply Hrow; simpl.
    + split; [intros _; now exists data | reflexivity].
    + split; discriminate.
  - split; [simpl; lia|]. split; [discriminate|].
    apply Hrow; simpl.
    + split; [discriminate | intros [d Hd]; discriminate].
    + split; reflexivity.
  - split; [simpl; lia|]. split; [discriminate|].
    apply Hrow; simpl.
    + split; [discriminate | intros [d Hd]; discriminate].
    + split; discriminate.
Qed.

Lemma register_stores_validated_names_witness :
  exists username password,
    JString (lit " ann ") = JString username
    /\ JString (lit "secret") = JString password
    /\ (2 <= length (trim username) <= 20)%nat.
Proof.
  destruct (register_stores_validated_names unit (fun _ => mkUser 1 (lit "ann"))
              (fun p => p) (fun _ => Inserted tt) (fun _ => lit "t")
              (mkRegisterBody (JString (lit " ann ")) (JString (lit "secret"))))
    as (_ & _ & H).
  destruct (H (mkPlayerRow (lit "ann") (lit "secret")))
    as (u & p & Hu & Hp & Hrow & Hlen & _).
  - left. reflexivity.
  - exists u, p. split; [exact Hu|]. split; [exact Hp|].
    rewrite Hrow in Hlen. exact Hlen.
Defined.

(** ** Score display *)

Section ScoreDisplay.

Lemma digitsRev_spec (fuel : nat) (n : Z) :
  (0 <= n < Z.of_nat fuel)%Z ->
  valueRev (digitsRev fuel n) = n
  /\ Forall (fun d => 0 <= d <= 9)%Z (digitsRev fuel n)
  /\ digitsRev fuel n <> [].
Proof.
  revert n. induction fuel as [|f IH]; intros n Hn; [lia|].
  cbn [digitsRev]. destruct (n <? 10)%Z eqn:E.
  - apply Z.ltb_lt in E. simpl. repeat split.
    + lia.
    + constructor; [lia | constructor].
    + discriminate.
  - apply Z.ltb_ge in E.
    assert (Hq : (0 <= n / 10 < Z.of_nat f)%Z).
    { split; [apply Z.div_pos; lia|].
      assert (n / 10 < n)%Z by (apply Z.div_lt; lia). lia. }
    destruct (IH _ Hq) as (Hv & Hd & _). cbn [valueRev]. rewrite Hv.
    repeat split.
    + pose proof (Z.div_mod n 10). lia.
    + constructor; [|exact Hd]. pose proof (Z.mod_pos_bound n 10). lia.
    + discriminate.
Qed.

Lemma placeGlyphs_digits (sx : Q) (i : nat) (ds : list Z) :
  map fst (placeGlyphs sx i ds) = ds.
Proof.
  revert i. induction ds as [|d rest IH]; intro i; simpl; [reflexivity|].
  now rewrite IH.
Qed.

Lemma placeGlyphs_length (sx : Q) (i : nat) (ds : list Z) :
  length (placeGlyphs sx i ds) = length ds.
Proof.
  revert i. induction ds as [|d rest IH]; intro i; simpl; [reflexivity|].
  now rewrite IH.
Qed.

Lemma placeGlyphs_positions (sx : Q) (i : nat) (ds : list Z) (k : nat)
      (x : Q) :
  nth_error (map snd (placeGlyphs sx i ds)) k = Some x ->
  x = sx + inject_Z (Z.of_nat (i + k)) * 24.
Proof.
  revert i k. induction ds as [|d rest IH]; intros i k; simpl.
  - destruct k; discriminate.
  - destruct k as [|k]; simpl.
    + intro H. injection H as <-. now rewrite Nat.add_0_r.
    + intro H. apply IH in H. now rewrite Nat.add_succ_r.
Qed.

End ScoreDisplay.

(** X22.  For a score that is not negative, as it is in every run, the
    glyphs drawn are the decimal digits of the score: there is at least
    one, each selects one of the ten digit sprites, and read as a decimal
    number they give the score.  They are drawn side by side, 24 apart,
    and the row is centred: the margin left of the first glyph equals
    the margin right of the last. *)
Theorem score_glyphs_show_score (n : Z) :
  (0 <= n)%Z ->
  let glyphs := scoreGlyphs n in
  let count := length glyphs in
  glyphs <> []
  /\ Forall (fun g => 0 <= fst g <= 9)%Z glyphs
  /\ valueRev (rev (map fst glyphs)) = n
  /\ (forall k x, nth_error (map snd glyphs) k = Some x ->
        x = glyphStart count + inject_Z (Z.of_nat k) * 24)
  /\ glyphStart count
     == CANVAS_WIDTH - (glyphStart count + inject_Z (Z.of_nat count) * 24).
Proof.
  intros Hn. cbv zeta. unfold scoreGlyphs.
  assert (Hf : (0 <= n < Z.of_nat (S (Z.to_nat n)))%Z) by lia.
  destruct (digitsRev_spec _ _ Hf) as (Hv & Hd & Hne).
  assert (Hlen : length (placeGlyphs (glyphStart (length (scoreDigits n))) 0
                           (scoreDigits n))
                 = length (scoreDigits n)).
  { apply placeGlyphs_length. }
  rewrite Hlen.
  split; [|split; [|split; [|split]]].
  - intro E. apply (f_equal (map fst)) in E.
    rewrite placeGlyphs_digits in E. unfold scoreDigits in E. simpl in E.
    apply (f_equal (@rev Z)) in E. rewrite rev_involutive in E.
    exact (Hne E).
  - apply (proj1 (Forall_map fst (fun d => 0 <= d <= 9)%Z _)).
    rewrite placeGlyphs_digits. unfold scoreDigits. now apply Forall_rev.
  - rewrite placeGlyphs_digits. unfold scoreDigits.
    now rewrite rev_involutive.
  - intros k x H. apply placeGlyphs_positions in H. exact H.
  - unfold glyphStart, CANVAS_WIDTH. field.
Qed.

Lemma score_glyphs_show_score_witness :
  map fst (scoreGlyphs 405) = [4; 0; 5]%Z
  /\ valueRev (rev (map fst (scoreGlyphs 405))) = 405%Z.
Proof.
  split; [reflexivity|].
  apply (score_glyphs_show_score 405). lia.
Defined.
